(** * Health-insurance claim processing: a shallow embedding of
    [python_src/claim_processor.py] and the properties of its claim engine
    and authentication service.

    Conventions of the embedding.
    - Python [float] amounts are rationals ([Q]): every finite double is a
      rational and the float comparisons [<=] and [>] agree with the order
      of [Q]; rounding of sums, infinities and NaN are outside the model.
    - Python [str] is [string] (code points below 256).
    - [datetime.now()] and [secrets.token_urlsafe] are read from the
      environment: the value they return is an explicit argument of the
      operation that calls them.
    - [Claim] objects are mutated in place by the engine, so they live in an
      object store and the engine's [claims] dict holds references to them.
    - A method is a computation in a state-and-exception monad; a raised
      exception keeps the state reached so far. *)

From Stdlib Require Import QArith.
From Stdlib Require Import Ascii String.
From stdpp Require Import gmap strings list fin_maps.

Local Open Scope string_scope.

(** ** Enumerations *)

Inductive ClaimStatus :=
  | PENDING | APPROVED | REJECTED | PROCESSING | REQUIRES_REVIEW.

Inductive UserType := PATIENT | PROVIDER | PAYOR.

#[global] Instance ClaimStatus_eq_dec : EqDecision ClaimStatus.
Proof. solve_decision. Defined.

#[global] Instance UserType_eq_dec : EqDecision UserType.
Proof. solve_decision. Defined.

(** [date] is a proleptic ordinal day, [datetime] a time stamp. *)
Definition date := Z.
Definition datetime := Z.
Bind Scope Z_scope with date datetime.

(** ** Exceptions and the method monad *)

(** The text of each [raise ValueError(...)] of the module. The f-string of
    [submit_claim] keeps the limit it prints as an argument. *)
Inductive message :=
  | Invalid_email_format
  | Insurance_ID_is_required
  | Claim_amount_must_be_positive
  | Claim_description_must_be_at_least_5_characters
  | Patient_not_found
  | Claim_amount_exceeds_maximum_limit_of (limit : Q)
  | Password_must_be_at_least_8_characters_long.

(** [AttributeError] is what Python raises when an attribute is read from a
    reference that holds no such object. *)
Inductive exn :=
  | ValueError (msg : message)
  | AttributeError.

Inductive outcome (A : Type) :=
  | Return (a : A)
  | Raise (e : exn).
Arguments Return {A} a.
Arguments Raise {A} e.

Definition M (S A : Type) : Type := S → outcome A * S.

#[global] Instance M_ret {S} : MRet (M S) := λ A a s, (Return a, s).
#[global] Instance M_bind {S} : MBind (M S) := λ A B k m s,
  match m s with
  | (Return a, s') => k a s'
  | (Raise e, s') => (Raise e, s')
  end.

Definition raise {S A} (e : exn) : M S A := λ s, (Raise e, s).
Definition gets {S A} (f : S → A) : M S A := λ s, (Return (f s), s).
Definition modify {S} (f : S → S) : M S unit := λ s, (Return tt, f s).

(** ** Regular expressions, as far as the module's patterns need them *)

Inductive regex :=
  | Void
  | Eps
  | Chr (c : ascii)
  | NotChr (c : ascii)          (* [^c] *)
  | Seq (r1 r2 : regex)
  | Alt (r1 r2 : regex)
  | Star (r : regex).

Definition Plus (r : regex) : regex := Seq r (Star r).

Fixpoint nullable (r : regex) : bool :=
  match r with
  | Void | Chr _ | NotChr _ => false
  | Eps | Star _ => true
  | Seq r1 r2 => nullable r1 && nullable r2
  | Alt r1 r2 => nullable r1 || nullable r2
  end.

Fixpoint deriv (a : ascii) (r : regex) : regex :=
  match r with
  | Void | Eps => Void
  | Chr c => if Ascii.eqb a c then Eps else Void
  | NotChr c => if Ascii.eqb a c then Void else Eps
  | Seq r1 r2 =>
      if nullable r1 then Alt (Seq (deriv a r1) r2) (deriv a r2)
      else Seq (deriv a r1) r2
  | Alt r1 r2 => Alt (deriv a r1) (deriv a r2)
  | Star r1 => Seq (deriv a r1) (Star r1)
  end.

Fixpoint fullmatch (r : regex) (s : string) : bool :=
  match s with
  | EmptyString => nullable r
  | String a s' => fullmatch (deriv a r) s'
  end.

(** [chomp s] is [Some s'] when [s] is [s'] followed by one final newline. *)
Fixpoint chomp (s : string) : option string :=
  match s with
  | EmptyString => None
  | String a EmptyString => if Ascii.eqb a "010"%char then Some EmptyString else None
  | String a s' => String a <$> chomp s'
  end.

(** [re.match('^' r '$', s) is not None]: the pattern is anchored at the
    start, and [$] matches at the end of the string or before a newline
    that ends it. *)
Definition re_match_anchored (r : regex) (s : string) : bool :=
  fullmatch r s || from_option (fullmatch r) false (chomp s).

(** [r'^[^@]+@[^@]+\.[^@]+$'] *)
Definition email_pattern : regex :=
  Seq (Plus (NotChr "@")) (Seq (Chr "@")
    (Seq (Plus (NotChr "@")) (Seq (Chr ".") (Plus (NotChr "@"))))).

(** [not email or not re.match(..., email)] *)
Definition invalid_email (email : string) : bool :=
  bool_decide (email = EmptyString) || negb (re_match_anchored email_pattern email).

(** ** [str.strip()] *)

(** [str.isspace] on the code points below 256. *)
Definition isspace (a : ascii) : bool :=
  let n := nat_of_ascii a in
  bool_decide (n ∈ [9; 10; 11; 12; 13; 28; 29; 30; 31; 32; 133; 160]%nat).

Fixpoint lstrip (s : string) : string :=
  match s with
  | EmptyString => EmptyString
  | String a s' => if isspace a then lstrip s' else s
  end.

Fixpoint rstrip (s : string) : string :=
  match s with
  | EmptyString => EmptyString
  | String a s' =>
      match rstrip s' with
      | EmptyString => if isspace a then EmptyString else String a EmptyString
      | t => String a t
      end
  end.

Definition strip (s : string) : string := rstrip (lstrip s).

(** ** Data model *)

Module Patient.
Record t := mk {
  id : string;
  name : string;
  email : string;
  date_of_birth : date;
  insurance_id : string;
  phone : option string
}.

(** [Patient.__post_init__], lines 41-46. *)
Definition __post_init__ (self : t) : outcome t :=
  if invalid_email (email self) then Raise (ValueError Invalid_email_format)
  else if bool_decide (insurance_id self = EmptyString) then
    Raise (ValueError Insurance_ID_is_required)
  else Return self.
End Patient.

Module Claim.
Record t := mk {
  id : string;
  patient_id : string;
  provider_id : string;
  amount : Q;
  description : string;
  date_of_service : date;
  status : ClaimStatus;
  created_at : option datetime;
  updated_at : option datetime
}.

Definition set_status (v : ClaimStatus) (c : t) : t :=
  mk (id c) (patient_id c) (provider_id c) (amount c) (description c)
     (date_of_service c) v (created_at c) (updated_at c).

Definition set_created_at (v : option datetime) (c : t) : t :=
  mk (id c) (patient_id c) (provider_id c) (amount c) (description c)
     (date_of_service c) (status c) v (updated_at c).

Definition set_updated_at (v : option datetime) (c : t) : t :=
  mk (id c) (patient_id c) (provider_id c) (amount c) (description c)
     (date_of_service c) (status c) (created_at c) v.

(** [Claim.__post_init__], lines 62-72. The two [datetime.now()] calls read
    [now1] then [now2]. The test is the source's [amount <= 0]; an amount
    that is not a number (NaN), for which this test is false in Python, is
    not an amount of the model, so the statements are made for amounts
    [<= 0] and amounts [> 0]. *)
Definition __post_init__ (now1 now2 : datetime) (self : t) : outcome t :=
  let self :=
    if created_at self is None then set_created_at (Some now1) self else self in
  let self :=
    if updated_at self is None then set_updated_at (Some now2) self else self in
  if Qle_bool (amount self) 0 then
    Raise (ValueError Claim_amount_must_be_positive)
  else if bool_decide (description self = EmptyString)
          || (String.length (strip (description self)) <? 5)%nat then
    Raise (ValueError Claim_description_must_be_at_least_5_characters)
  else Return self.
End Claim.

(** ** The object store and the claim engine *)

(** A reference to a [Claim] object. *)
Definition loc := nat.

Record ClaimProcessor := mkClaimProcessor {
  claims : gmap string loc;
  patients : gmap string Patient.t;
  auto_approve_threshold : Q;
  max_claim_amount : Q
}.

(** The state a method of the engine runs in: the [Claim] objects that are
    alive and the engine instance [self]. No method writes to a [Patient],
    so the [patients] dict holds their values. *)
Record World := mkWorld {
  objects : gmap loc Claim.t;
  self : ClaimProcessor
}.

Definition set_objects (f : gmap loc Claim.t → gmap loc Claim.t) (w : World) : World :=
  mkWorld (f (objects w)) (self w).

Definition set_claims (f : gmap string loc → gmap string loc) (w : World) : World :=
  mkWorld (objects w)
    (mkClaimProcessor (f (claims (self w))) (patients (self w))
       (auto_approve_threshold (self w)) (max_claim_amount (self w))).

Definition set_patients
    (f : gmap string Patient.t → gmap string Patient.t) (w : World) : World :=
  mkWorld (objects w)
    (mkClaimProcessor (claims (self w)) (f (patients (self w)))
       (auto_approve_threshold (self w)) (max_claim_amount (self w))).

(** [ClaimProcessor.__init__] *)
Definition ClaimProcessor_init : ClaimProcessor :=
  mkClaimProcessor ∅ ∅ 100 50000.

Definition initial_world : World := mkWorld ∅ ClaimProcessor_init.

(** [claim.attr]: reading an attribute of the object behind a reference. *)
Definition getattr {A} (claim : loc) (attr : Claim.t → A) : M World A := λ w,
  match objects w !! claim with
  | Some c => (Return (attr c), w)
  | None => (Raise AttributeError, w)
  end.

(** [claim.attr = v]: writing an attribute in place. *)
Definition setattr (claim : loc) (upd : Claim.t → Claim.t) : M World unit := λ w,
  match objects w !! claim with
  | Some c => (Return tt, set_objects <[claim := upd c]> w)
  | None => (Raise AttributeError, w)
  end.

(** [Claim(...)]: the dataclass constructor. The object exists only when
    [__post_init__] returns. *)
Definition Claim_new (fields : Claim.t) (now1 now2 : datetime) : M World loc := λ w,
  match Claim.__post_init__ now1 now2 fields with
  | Return c =>
      let l := fresh (dom (objects w)) in
      (Return l, set_objects <[l := c]> w)
  | Raise e => (Raise e, w)
  end.

(** [ClaimProcessor.register_patient], lines 84-90. *)
Definition register_patient (patient : Patient.t) : M World bool :=
  ps ← gets (patients ∘ self);
  if bool_decide (Patient.id patient ∈ dom ps) then mret false
  else
    modify (set_patients <[Patient.id patient := patient]>);;
    mret true.

(** [ClaimProcessor.get_patient], lines 92-94. *)
Definition get_patient (patient_id : string) : M World (option Patient.t) :=
  ps ← gets (patients ∘ self);
  mret (ps !! patient_id).

(** [ClaimProcessor._process_claim], lines 111-120. [amount > 10000.0] is
    the negation of [amount <= 10000]. *)
Definition _process_claim (claim : loc) (now : datetime) : M World unit :=
  amount ← getattr claim Claim.amount;
  threshold ← gets (auto_approve_threshold ∘ self);
  (if Qle_bool amount threshold then
     setattr claim (Claim.set_status APPROVED)
   else if negb (Qle_bool amount 10000) then
     setattr claim (Claim.set_status REQUIRES_REVIEW)
   else
     setattr claim (Claim.set_status PROCESSING));;
  setattr claim (Claim.set_updated_at (Some now)).

(** [ClaimProcessor.submit_claim], lines 96-109. The argument is the
    reference of the claim object; the dict stores this reference. *)
Definition submit_claim (claim : loc) (now : datetime) : M World bool :=
  claim_id ← getattr claim Claim.id;
  cs ← gets (claims ∘ self);
  if bool_decide (claim_id ∈ dom cs) then mret false
  else
    patient_id ← getattr claim Claim.patient_id;
    ps ← gets (patients ∘ self);
    if bool_decide (patient_id ∉ dom ps) then raise (ValueError Patient_not_found)
    else
      amount ← getattr claim Claim.amount;
      limit ← gets (max_claim_amount ∘ self);
      if negb (Qle_bool amount limit) then
        raise (ValueError (Claim_amount_exceeds_maximum_limit_of limit))
      else
        claim_id ← getattr claim Claim.id;
        modify (set_claims <[claim_id := claim]>);;
        _process_claim claim now;;
        mret true.

(** [ClaimProcessor.approve_claim], lines 122-133. [self.claims.get] gives
    [None] or a claim object, and a claim object is truthy, so [not claim]
    is the case [None]. *)
Definition approve_claim (claim_id : string) (now : datetime) : M World bool :=
  cs ← gets (claims ∘ self);
  match cs !! claim_id with
  | None => mret false
  | Some claim =>
      st ← getattr claim Claim.status;
      if bool_decide (st ∈ [APPROVED; REJECTED]) then mret false
      else
        setattr claim (Claim.set_status APPROVED);;
        setattr claim (Claim.set_updated_at (Some now));;
        mret true
  end.

(** [ClaimProcessor.reject_claim], lines 135-146. The reason is not used. *)
Definition reject_claim (claim_id : string) (reason : string) (now : datetime)
    : M World bool :=
  cs ← gets (claims ∘ self);
  match cs !! claim_id with
  | None => mret false
  | Some claim =>
      st ← getattr claim Claim.status;
      if bool_decide (st ∈ [APPROVED; REJECTED]) then mret false
      else
        setattr claim (Claim.set_status REJECTED);;
        setattr claim (Claim.set_updated_at (Some now));;
        mret true
  end.

(** [ClaimProcessor.get_claim], lines 148-150: the reference, when there
    is one. *)
Definition get_claim (claim_id : string) : M World (option loc) :=
  cs ← gets (claims ∘ self);
  mret (cs !! claim_id).

(** A comprehension that runs [f] on every element, in order. *)
Fixpoint for_each {S A B} (f : A → M S B) (xs : list A) : M S (list B) :=
  match xs with
  | [] => mret []
  | x :: xs' => y ← f x; ys ← for_each f xs'; mret (y :: ys)
  end.

(** Python's [sum]: start from 0 and add from left to right. The additions
    are those of [Q], without the rounding of floats: what is stated of a
    total is stated of the value [sum] returns for a list of amounts, or of
    two totals over the same list, not by the laws of exact addition. *)
Definition sum (xs : list Q) : Q := fold_left Qplus xs 0%Q.

(** [self.claims.values()], as a list of references. The list follows the
    enumeration of the keys of the map, not the order of insertion in which
    Python iterates; the statements characterise the lists built from it by
    their members. *)
Definition values (cs : gmap string loc) : list loc := (map_to_list cs).*2.

(** [ClaimProcessor.calculate_total_approved_amount], lines 160-166. The
    comprehension reads [patient_id] and [status] of every stored claim,
    then [amount] of the selected ones. *)
Definition calculate_total_approved_amount (patient_id : string) : M World Q :=
  cs ← gets (claims ∘ self);
  all ← for_each (λ claim, getattr claim (λ c, c)) (values cs);
  let approved_claims :=
    filter (λ claim : Claim.t,
      Claim.patient_id claim = patient_id ∧ Claim.status claim = APPROVED) all in
  mret (sum (Claim.amount <$> approved_claims)).

(** A comprehension with a condition: the elements on which [p] returns
    true, in order. *)
Fixpoint select {S A} (p : A → M S bool) (xs : list A) : M S (list A) :=
  match xs with
  | [] => mret []
  | x :: xs' =>
      b ← p x; ys ← select p xs'; mret (if b : bool then x :: ys else ys)
  end.

(** [ClaimProcessor.get_claims_by_patient], lines 152-154. The list holds
    the claim objects themselves, so references. It follows the enumeration
    [values] of the dict; the order of insertion, in which Python iterates,
    is not part of the model, and no property below depends on the order. *)
Definition get_claims_by_patient (patient_id : string) : M World (list loc) :=
  cs ← gets (claims ∘ self);
  select (λ claim, p ← getattr claim Claim.patient_id;
                   mret (bool_decide (p = patient_id))) (values cs).

(** [ClaimProcessor.get_claims_by_status], lines 156-158. *)
Definition get_claims_by_status (status : ClaimStatus) : M World (list loc) :=
  cs ← gets (claims ∘ self);
  select (λ claim, st ← getattr claim Claim.status;
                   mret (bool_decide (st = status))) (values cs).

(** ** The authentication service *)

Module User.
(** The dict literal stored by [register_user]. *)
Record t := mk {
  email : string;
  password : string;
  user_type : UserType;
  created_at : datetime;
  is_active : bool
}.
End User.

Record AuthenticationService := mkAuthenticationService {
  users : gmap string User.t;
  active_sessions : gmap string string   (* token -> user_id *)
}.

Definition set_users (f : gmap string User.t → gmap string User.t)
    (a : AuthenticationService) : AuthenticationService :=
  mkAuthenticationService (f (users a)) (active_sessions a).

Definition set_active_sessions (f : gmap string string → gmap string string)
    (a : AuthenticationService) : AuthenticationService :=
  mkAuthenticationService (users a) (f (active_sessions a)).

(** [AuthenticationService.__init__] *)
Definition AuthenticationService_init : AuthenticationService :=
  mkAuthenticationService ∅ ∅.

(** [AuthenticationService.register_user], lines 176-194. *)
Definition register_user (user_id email password : string) (user_type : UserType)
    (now : datetime) : M AuthenticationService bool :=
  us ← gets users;
  if bool_decide (user_id ∈ dom us) then mret false
  else if invalid_email email then raise (ValueError Invalid_email_format)
  else if (String.length password <? 8)%nat then
    raise (ValueError Password_must_be_at_least_8_characters_long)
  else
    modify (set_users <[user_id := User.mk email password user_type now true]>);;
    mret true.

(** [AuthenticationService.create_session], lines 208-213. [token] is what
    [secrets.token_urlsafe(32)] returns in this call. *)
Definition create_session (user_id : string) (token : string)
    : M AuthenticationService string :=
  modify (set_active_sessions <[token := user_id]>);;
  mret token.

(** [AuthenticationService.validate_session], lines 215-217. *)
Definition validate_session (token : string) : M AuthenticationService (option string) :=
  ss ← gets active_sessions;
  mret (ss !! token).

(** [AuthenticationService.logout], lines 219-224. *)
Definition logout (token : string) : M AuthenticationService bool :=
  ss ← gets active_sessions;
  if bool_decide (token ∈ dom ss) then
    modify (set_active_sessions (delete token));;
    mret true
  else mret false.

Module UserView.
(** The dict that [authenticate] returns. *)
Record t := mk {
  user_id : string;
  email : string;
  user_type : UserType
}.
End UserView.

(** The loop of [authenticate] over the items of the [users] dict, lines
    198-206: the first user with this email and password that is active. *)
Fixpoint authenticate_loop (items : list (string * User.t)) (email password : string)
    : option UserView.t :=
  match items with
  | [] => None
  | (user_id, user_data) :: rest =>
      if bool_decide (User.email user_data = email)
         && bool_decide (User.password user_data = password) then
        if User.is_active user_data then
          Some (UserView.mk user_id email (User.user_type user_data))
        else authenticate_loop rest email password
      else authenticate_loop rest email password
  end.

(** [AuthenticationService.authenticate], lines 196-206. The order in which
    a dict is iterated (the order of insertion) is not part of the model:
    the loop runs over an enumeration of the items, and the properties of
    the loop are stated for every enumeration. *)
Definition authenticate (email password : string)
    : M AuthenticationService (option UserView.t) :=
  us ← gets users;
  mret (authenticate_loop (map_to_list us) email password).

(** ** Utility functions *)

(** [str.upper] of one character, on the code points below 256: the
    letters a-z and the accented small letters go to their capitals and the
    sharp s becomes SS. The capitals of the micro sign and of y with
    diaeresis are code points above 255 (U+039C and U+0178), outside the
    strings of the model; the model leaves these two characters in place.
    Neither they nor their capitals are among A-Z and 0-9. *)
Definition upper_char (a : ascii) : string :=
  let n := nat_of_ascii a in
  if (97 <=? n)%nat && (n <=? 122)%nat then String (ascii_of_nat (n - 32)) EmptyString
  else if (n =? 223)%nat then "SS"
  else if (224 <=? n)%nat && (n <=? 254)%nat && negb (n =? 247)%nat then
    String (ascii_of_nat (n - 32)) EmptyString
  else String a EmptyString.

Fixpoint upper (s : string) : string :=
  match s with
  | EmptyString => EmptyString
  | String a s' => upper_char a ++ upper s'
  end.

(** A character class [[...]] of single characters. *)
Definition one_of (cs : list ascii) : regex := foldr (λ c r, Alt (Chr c) r) Void cs.

(** [r{n}] *)
Fixpoint times (n : nat) (r : regex) : regex :=
  match n with
  | O => Eps
  | S n' => Seq r (times n' r)
  end.

(** [r{0,n}] *)
Fixpoint upto (n : nat) (r : regex) : regex :=
  match n with
  | O => Eps
  | S n' => Alt Eps (Seq r (upto n' r))
  end.

(** [r{m,n}] *)
Definition between (m n : nat) (r : regex) : regex := Seq (times m r) (upto (n - m) r).

(** The characters of [[A-Z0-9]]. *)
Definition A_Z0_9 : list ascii :=
  list_ascii_of_string "ABCDEFGHIJKLMNOPQRSTUVWXYZ0123456789".

(** [r'^[A-Z0-9]{8,12}$'] *)
Definition insurance_id_pattern : regex := between 8 12 (one_of A_Z0_9).

(** [validate_insurance_id], lines 227-233. *)
Definition validate_insurance_id (insurance_id : string) : bool :=
  if bool_decide (insurance_id = EmptyString) then false
  else re_match_anchored insurance_id_pattern (upper insurance_id).

(** [calculate_claim_processing_fee], lines 241-248. *)
Definition calculate_claim_processing_fee (amount : Q) : Q :=
  if Qle_bool amount 1000 then 25
  else if Qle_bool amount 5000 then 50
  else 100.

(** ** The error taxonomy of the specification *)

Inductive error_kind := ValidationError | ReferentialError | LimitExceededError.

(** How the specification names the [ValueError]s of the module: a format or
    structure rule is a [ValidationError], a missing patient a
    [ReferentialError], the amount ceiling a [LimitExceededError]. *)
Definition kind_of (e : exn) : option error_kind :=
  match e with
  | ValueError Patient_not_found => Some ReferentialError
  | ValueError (Claim_amount_exceeds_maximum_limit_of _) => Some LimitExceededError
  | ValueError _ => Some ValidationError
  | AttributeError => None
  end.

(** ** Calls and runs *)

(** What a caller can do with the engine: construct a claim and call a
    state-changing method. The lookups and [calculate_total_approved_amount]
    leave the state as it is. *)
Inductive call :=
  | Call_Claim (fields : Claim.t) (now1 now2 : datetime)
  | Call_register_patient (patient : Patient.t)
  | Call_submit_claim (claim : loc) (now : datetime)
  | Call_approve_claim (claim_id : string) (now : datetime)
  | Call_reject_claim (claim_id reason : string) (now : datetime).

(** The state after a call, whether it returned or raised. *)
Definition exec (c : call) (w : World) : World :=
  match c with
  | Call_Claim fields now1 now2 => (Claim_new fields now1 now2 w).2
  | Call_register_patient patient => (register_patient patient w).2
  | Call_submit_claim claim now => (submit_claim claim now w).2
  | Call_approve_claim claim_id now => (approve_claim claim_id now w).2
  | Call_reject_claim claim_id reason now => (reject_claim claim_id reason now w).2
  end.

Definition run (cs : list call) (w : World) : World := fold_left (λ w c, exec c w) cs w.

Definition reachable (w : World) : Prop := ∃ cs, w = run cs initial_world.

(** The state-changing calls of the authentication service. [authenticate]
    and [validate_session] only read. *)
Inductive auth_call :=
  | Call_register_user (user_id email password : string) (user_type : UserType)
      (now : datetime)
  | Call_create_session (user_id token : string)
  | Call_logout (token : string).

Definition auth_exec (c : auth_call) (a : AuthenticationService) : AuthenticationService :=
  match c with
  | Call_register_user user_id email password user_type now =>
      (register_user user_id email password user_type now a).2
  | Call_create_session user_id token => (create_session user_id token a).2
  | Call_logout token => (logout token a).2
  end.

Definition auth_run (cs : list auth_call) (a : AuthenticationService)
    : AuthenticationService :=
  fold_left (λ a c, auth_exec c a) cs a.

(** ** Scenario of the specification *)

Definition P1 : Patient.t :=
  Patient.mk "P1" "Pat One" "pat.one@example.com" 726000 "INS12345" None.

Definition claim_fields (id : string) (amount : Q) : Claim.t :=
  Claim.mk id "P1" "PR1" amount "Routine checkup" 738000 PENDING None None.

Definition scenario : list call :=
  [ Call_register_patient P1;
    Call_Claim (claim_fields "C1" 75) 1 1;
    Call_submit_claim 0%nat 2;
    Call_Claim (claim_fields "C2" 500) 3 3;
    Call_submit_claim 1%nat 4;
    Call_Claim (claim_fields "C3" 15000) 5 5;
    Call_submit_claim 2%nat 6;
    Call_approve_claim "C2" 7;
    Call_reject_claim "C3" EmptyString 8 ].

(** * Definitions for the statements *)

Ltac unfold_M :=
  unfold mbind, M_bind, mret, M_ret, gets, modify, raise, getattr, setattr,
    compose in *;
  cbn [objects self claims patients auto_approve_threshold max_claim_amount
       set_objects set_claims set_patients fst snd] in *.

(** Membership of a status in a list of statuses. *)
Ltac status_solver :=
  decompose_list_elem_of; subst;
  try congruence;
  try (by repeat constructor);
  try (exfalso;
       match goal with H : _ ∉ _ |- _ => apply H; by repeat constructor end).

(** ** What the methods write *)

(** The claim object after a manual decision. *)
Definition decided (target : ClaimStatus) (now : datetime) (c : Claim.t) : Claim.t :=
  Claim.set_updated_at (Some now) (Claim.set_status target c).

(** The status [_process_claim] chooses. *)
Definition auto_decision (threshold amount : Q) : ClaimStatus :=
  if Qle_bool amount threshold then APPROVED
  else if negb (Qle_bool amount 10000) then REQUIRES_REVIEW
  else PROCESSING.

(** ** States of the engine *)

(** The claim stored under an identifier, read through its reference. *)
Definition stored (w : World) (claim_id : string) : option Claim.t :=
  claims (self w) !! claim_id ≫= λ claim, objects w !! claim.

(** The claims of the engine by identifier. *)
Definition stored_claims (w : World) : gmap string Claim.t :=
  omap (λ claim, objects w !! claim) (claims (self w)).

(** Every key of the [claims] dict holds a claim object that carries this
    key as its identifier. *)
Definition keys_consistent (w : World) : Prop :=
  ∀ claim_id claim, claims (self w) !! claim_id = Some claim →
    ∃ c, objects w !! claim = Some c ∧ Claim.id c = claim_id.

(** What holds in every state that the constructor and the methods reach
    from a new engine. *)
Record invariant (w : World) : Prop := {
  inv_keys : keys_consistent w;
  inv_positive : ∀ claim c, objects w !! claim = Some c → (0 < Claim.amount c)%Q;
  inv_limit : ∀ claim_id claim c,
    claims (self w) !! claim_id = Some claim → objects w !! claim = Some c →
    (Claim.amount c <= max_claim_amount (self w))%Q;
  inv_never_pending : ∀ claim_id claim c,
    claims (self w) !! claim_id = Some claim → objects w !! claim = Some c →
    Claim.status c ≠ PENDING;
  inv_threshold : auto_approve_threshold (self w) = 100%Q;
  inv_ceiling : max_claim_amount (self w) = 50000%Q
}.

(** The calls [approve_claim] and [reject_claim]. *)
Definition is_decision (c : call) : Prop :=
  match c with
  | Call_approve_claim _ _ | Call_reject_claim _ _ _ => True
  | _ => False
  end.

(** ** The approved total, as the specification words it *)

(** The claim is one of the patient and is approved. *)
Definition is_approved_for (patient_id : string) (c : Claim.t) : Prop :=
  Claim.patient_id c = patient_id ∧ Claim.status c = APPROVED.

(** The stored claims of a patient that are approved now. *)
Definition approved_claims_of (patient_id : string) (w : World) : gmap string Claim.t :=
  filter (λ kc, is_approved_for patient_id kc.2) (stored_claims w).

(** The sum of the amounts of a set of claims. *)
Definition sum_amounts (m : gmap string Claim.t) : Q :=
  map_fold (λ _ c acc, (acc + Claim.amount c)%Q) 0%Q m.

(** The list [approved_claims] that the comprehension of
    [calculate_total_approved_amount] builds, where the values of the dict
    are claim objects. *)
Definition approved_claims (patient_id : string) (w : World) : list Claim.t :=
  filter (is_approved_for patient_id)
    (omap (λ claim, objects w !! claim) (values (claims (self w)))).

(** What the comprehension and [sum] compute from the list of stored claim
    objects. *)
Definition total_of (patient_id : string) (cs : list Claim.t) : Q :=
  sum (Claim.amount <$> filter (is_approved_for patient_id) cs).

(** ** Sessions *)

(** A call that neither logs the token out nor maps it to another user: a
    token drawn by [create_session] is not drawn again for another user. *)
Definition keeps_session (token user_id : string) (c : auth_call) : Prop :=
  match c with
  | Call_register_user _ _ _ _ _ => True
  | Call_create_session user_id' token' => token' = token → user_id' = user_id
  | Call_logout token' => token' ≠ token
  end.

(** ** The language of a regular expression and the shape of an email *)

(** [matches r s]: the string [s] is in the language of [r]. *)
Inductive matches : regex → string → Prop :=
  | matches_Eps : matches Eps EmptyString
  | matches_Chr c : matches (Chr c) (String c EmptyString)
  | matches_NotChr c a : a ≠ c → matches (NotChr c) (String a EmptyString)
  | matches_Seq r1 r2 s1 s2 :
      matches r1 s1 → matches r2 s2 → matches (Seq r1 r2) (s1 ++ s2)
  | matches_Alt_l r1 r2 s : matches r1 s → matches (Alt r1 r2) s
  | matches_Alt_r r1 r2 s : matches r2 s → matches (Alt r1 r2) s
  | matches_Star_nil r : matches (Star r) EmptyString
  | matches_Star_cons r s1 s2 :
      matches r s1 → matches (Star r) s2 → matches (Star r) (s1 ++ s2).

(** No character of the string is [c]. *)
Fixpoint free_of (c : ascii) (s : string) : Prop :=
  match s with
  | EmptyString => True
  | String a s' => a ≠ c ∧ free_of c s'
  end.

(** The shape [local@domain.tld]: three parts that are not empty and hold
    no [@], joined by [@] and a dot. *)
Definition email_shape (email : string) : Prop :=
  ∃ local domain tld,
    email = local ++ "@" ++ domain ++ "." ++ tld ∧
    (local ≠ EmptyString ∧ free_of "@" local) ∧
    (domain ≠ EmptyString ∧ free_of "@" domain) ∧
    (tld ≠ EmptyString ∧ free_of "@" tld).

(** ** Statements about runs of the engine *)

(** The values of the [claims] dict are claim objects. *)
Definition claims_are_objects (w : World) : Prop :=
  ∀ claim_id claim, claims (self w) !! claim_id = Some claim →
    is_Some (objects w !! claim).

(** [c'] is [c] up to [status] and [updated_at]. *)
Definition same_but_decision (c c' : Claim.t) : Prop :=
  Claim.id c' = Claim.id c ∧
  Claim.patient_id c' = Claim.patient_id c ∧
  Claim.provider_id c' = Claim.provider_id c ∧
  Claim.amount c' = Claim.amount c ∧
  Claim.description c' = Claim.description c ∧
  Claim.date_of_service c' = Claim.date_of_service c ∧
  Claim.created_at c' = Claim.created_at c.

(** The status stays, or a claim in processing or in review is approved or
    rejected. *)
Definition transition (s s' : ClaimStatus) : Prop :=
  s' = s ∨ (s ∈ [PROCESSING; REQUIRES_REVIEW] ∧ s' ∈ [APPROVED; REJECTED]).

(** Every stored claim names a registered patient. *)
Definition references_patients (w : World) : Prop :=
  ∀ claim_id c, stored w claim_id = Some c →
    Claim.patient_id c ∈ dom (patients (self w)).

(** ** Statements about construction *)

(** Every character of the string is white space. *)
Fixpoint blank (s : string) : Prop :=
  match s with
  | EmptyString => True
  | String a s' => isspace a = true ∧ blank s'
  end.

(** ** Statements about users *)

(** The user has this email and this password and is active. *)
Definition has_credentials (email password : string) (u : User.t) : Prop :=
  User.email u = email ∧ User.password u = password ∧ User.is_active u = true.

(** Every stored user is active, has an email of the shape
    [local@domain.tld] and a password of at least 8 characters. *)
Definition users_valid (a : AuthenticationService) : Prop :=
  ∀ user_id u, users a !! user_id = Some u →
    User.is_active u = true ∧ email_shape (User.email u) ∧
    (8 <= String.length (User.password u))%nat.

(** ** Statements about insurance identifiers *)

(** Every character of the string is one of [cs]. *)
Fixpoint all_in (cs : list ascii) (s : string) : Prop :=
  match s with
  | EmptyString => True
  | String a s' => a ∈ cs ∧ all_in cs s'
  end.

(** The letters and digits of ASCII. *)
Definition alphanumeric : list ascii :=
  list_ascii_of_string
    "ABCDEFGHIJKLMNOPQRSTUVWXYZabcdefghijklmnopqrstuvwxyz0123456789".

(** The newline character as a string. *)
Definition newline : string := String "010" EmptyString.

(** ** Concrete inputs *)

(** [P1] is registered and a claim [C1] of 75 is constructed at reference 0. *)
Definition world_C1_constructed : World :=
  run [Call_register_patient P1; Call_Claim (claim_fields "C1" 75) 1 1] initial_world.

(** The scenario has run, and one more claim object is constructed at
    reference 3: it has the identifier of the stored claim [C1], a patient
    that is not registered and an amount over the ceiling. *)
Definition world_duplicate_constructed : World :=
  run (scenario ++
       [Call_Claim (Claim.mk "C1" "P9" "PR1" 60000 "Large procedure" 738000
                      PENDING None None) 9 9])
      initial_world.

(** A claim object with a new identifier, a patient that is not registered
    and an amount over the ceiling, at reference 0. *)
Definition world_unknown_patient : World :=
  run [Call_register_patient P1;
       Call_Claim (Claim.mk "C7" "P9" "PR1" 60000 "Large procedure" 738000
                     PENDING None None) 1 1]
      initial_world.

(** A patient that the scenario does not register. *)
Definition P9 : Patient.t :=
  Patient.mk "P9" "Pat Nine" "nine@example.org" 730000 "INS00009" None.

(** In a new engine, a claim object of 500 for the patient [P9], who is not
    registered, at reference 0. *)
Definition world_small_unknown : World :=
  run [Call_Claim (Claim.mk "C8" "P9" "PR1" 500 "Small procedure" 738000
                     PENDING None None) 1 1]
      initial_world.

(** The user [U001] is registered. *)
Definition service_U001 : AuthenticationService :=
  auth_run [Call_register_user "U001" "user@example.com" "password123" PATIENT 1]
    AuthenticationService_init.

(** * Properties *)

(** ** What each method computes, by cases on what it reads *)

Lemma register_patient_eq patient w :
  register_patient patient w =
    if bool_decide (Patient.id patient ∈ dom (patients (self w))) then (Return false, w)
    else (Return true, set_patients <[Patient.id patient := patient]> w).
Proof. unfold register_patient. unfold_M. by case_bool_decide. Qed.

Lemma _process_claim_eq claim now w c :
  objects w !! claim = Some c →
  _process_claim claim now w =
    (Return tt,
     set_objects
       <[claim := decided (auto_decision (auto_approve_threshold (self w))
                             (Claim.amount c)) now c]> w).
Proof.
  intros Hc. unfold _process_claim, decided, auto_decision. unfold_M.
  rewrite Hc.
  destruct (Qle_bool _ (auto_approve_threshold _)); [|destruct (negb _)];
    rewrite Hc; unfold_M; rewrite lookup_insert_eq;
    unfold set_objects; cbn; by rewrite insert_insert_eq.
Qed.

Lemma submit_claim_eq claim now w :
  submit_claim claim now w =
    match objects w !! claim with
    | None => (Raise AttributeError, w)
    | Some c =>
        if bool_decide (Claim.id c ∈ dom (claims (self w))) then (Return false, w)
        else if bool_decide (Claim.patient_id c ∉ dom (patients (self w))) then
          (Raise (ValueError Patient_not_found), w)
        else if negb (Qle_bool (Claim.amount c) (max_claim_amount (self w))) then
          (Raise (ValueError
                    (Claim_amount_exceeds_maximum_limit_of (max_claim_amount (self w)))),
           w)
        else
          (Return true,
           set_objects
             <[claim := decided (auto_decision (auto_approve_threshold (self w))
                                   (Claim.amount c)) now c]>
             (set_claims <[Claim.id c := claim]> w))
    end.
Proof.
  unfold submit_claim. unfold_M.
  destruct (objects w !! claim) as [c|] eqn:Hc; [|done].
  case_bool_decide; [done|]. rewrite Hc; cbv beta iota.
  case_bool_decide; [done|]. rewrite Hc; cbv beta iota.
  destruct (negb _); [done|]. rewrite Hc; cbv beta iota.
  by rewrite (_process_claim_eq _ _ _ c).
Qed.

Lemma approve_claim_eq claim_id now w :
  approve_claim claim_id now w =
    match claims (self w) !! claim_id with
    | None => (Return false, w)
    | Some claim =>
        match objects w !! claim with
        | None => (Raise AttributeError, w)
        | Some c =>
            if bool_decide (Claim.status c ∈ [APPROVED; REJECTED]) then (Return false, w)
            else (Return true, set_objects <[claim := decided APPROVED now c]> w)
        end
    end.
Proof.
  unfold approve_claim, decided. unfold_M.
  destruct (claims (self w) !! claim_id) as [claim|]; [|done].
  destruct (objects w !! claim) as [c|] eqn:Hc; [|done].
  case_bool_decide; [done|]. rewrite Hc. unfold_M.
  rewrite lookup_insert_eq. unfold set_objects; cbn. by rewrite insert_insert_eq.
Qed.

Lemma reject_claim_eq claim_id reason now w :
  reject_claim claim_id reason now w =
    match claims (self w) !! claim_id with
    | None => (Return false, w)
    | Some claim =>
        match objects w !! claim with
        | None => (Raise AttributeError, w)
        | Some c =>
            if bool_decide (Claim.status c ∈ [APPROVED; REJECTED]) then (Return false, w)
            else (Return true, set_objects <[claim := decided REJECTED now c]> w)
        end
    end.
Proof.
  unfold reject_claim, decided. unfold_M.
  destruct (claims (self w) !! claim_id) as [claim|]; [|done].
  destruct (objects w !! claim) as [c|] eqn:Hc; [|done].
  case_bool_decide; [done|]. rewrite Hc. unfold_M.
  rewrite lookup_insert_eq. unfold set_objects; cbn. by rewrite insert_insert_eq.
Qed.

(** ** Submission *)

Lemma auto_decision_cases threshold amount :
  ((amount <= threshold)%Q → auto_decision threshold amount = APPROVED) ∧
  (¬ (amount <= threshold)%Q → (10000 < amount)%Q →
     auto_decision threshold amount = REQUIRES_REVIEW) ∧
  (¬ (amount <= threshold)%Q → (amount <= 10000)%Q →
     auto_decision threshold amount = PROCESSING) ∧
  auto_decision threshold amount ≠ PENDING.
Proof.
  unfold auto_decision.
  destruct (Qle_bool amount threshold) eqn:Ht;
    [|destruct (Qle_bool amount 10000) eqn:Hr; simpl].
  - apply Qle_bool_iff in Ht. by repeat split.
  - assert (¬ (amount <= threshold)%Q) by (rewrite <- Qle_bool_iff; congruence).
    apply Qle_bool_iff in Hr. repeat split; try done.
    intros _ Hlt. by apply Qlt_not_le in Hlt.
  - assert (¬ (amount <= 10000)%Q) by (rewrite <- Qle_bool_iff; congruence).
    assert (¬ (amount <= threshold)%Q) by (rewrite <- Qle_bool_iff; congruence).
    by repeat split.
Qed.

(** [submit_claim] does accept: a claim object with a new identifier, a
    registered patient and an amount within the ceiling is stored. *)
Lemma submit_claim_accepts claim now w c :
  objects w !! claim = Some c →
  Claim.id c ∉ dom (claims (self w)) →
  Claim.patient_id c ∈ dom (patients (self w)) →
  (Claim.amount c <= max_claim_amount (self w))%Q →
  ∃ w', submit_claim claim now w = (Return true, w') ∧
        claims (self w') = <[Claim.id c := claim]> (claims (self w)).
Proof.
  intros Hc Hnew Hpatient Hlimit. rewrite submit_claim_eq, Hc.
  rewrite (bool_decide_eq_false_2 _ Hnew).
  rewrite bool_decide_eq_false_2 by (intros Hn; by apply Hn).
  apply Qle_bool_iff in Hlimit. rewrite Hlimit. by eexists.
Qed.

(** C1. When [submit_claim] returns true the claim is stored under its
    identifier and the status of the claim object right after the call is
    the one the auto-decision rule gives for its amount: approved when
    amount <= auto_approve_threshold, else requires_review when
    amount > 10000, else processing; in no case pending. The threshold of a
    new engine is 100. *)
Theorem submit_claim_auto_decision claim now w w' :
  submit_claim claim now w = (Return true, w') →
  ∃ c c',
    objects w !! claim = Some c ∧
    claims (self w') !! Claim.id c = Some claim ∧
    objects w' !! claim = Some c' ∧
    Claim.amount c' = Claim.amount c ∧
    ((Claim.amount c <= auto_approve_threshold (self w))%Q →
       Claim.status c' = APPROVED) ∧
    (¬ (Claim.amount c <= auto_approve_threshold (self w))%Q →
       (10000 < Claim.amount c)%Q → Claim.status c' = REQUIRES_REVIEW) ∧
    (¬ (Claim.amount c <= auto_approve_threshold (self w))%Q →
       (Claim.amount c <= 10000)%Q → Claim.status c' = PROCESSING) ∧
    Claim.status c' ≠ PENDING ∧
    Claim.updated_at c' = Some now ∧
    (auto_approve_threshold ClaimProcessor_init == 100)%Q.
Proof.
  rewrite submit_claim_eq. intros Hsub.
  destruct (objects w !! claim) as [c|] eqn:Hc; [|done].
  repeat (case_bool_decide || destruct (negb _)); try done.
  injection Hsub as <-.
  exists c, (decided (auto_decision (auto_approve_threshold (self w))
                       (Claim.amount c)) now c).
  cbn. rewrite !lookup_insert_eq.
  destruct (auto_decision_cases (auto_approve_threshold (self w)) (Claim.amount c))
    as (? & ? & ? & ?).
  by repeat split.
Qed.

Lemma submit_claim_auto_decision_witness :
  submit_claim 0%nat 2 world_C1_constructed
    = (Return true, (submit_claim 0%nat 2 world_C1_constructed).2) ∧
  ∃ c', objects (submit_claim 0%nat 2 world_C1_constructed).2 !! 0%nat = Some c' ∧
        Claim.status c' = APPROVED.
Proof.
  split; [by vm_compute|].
  destruct (submit_claim_auto_decision 0%nat 2 world_C1_constructed
              (submit_claim 0%nat 2 world_C1_constructed).2)
    as (c & c' & Hc & _ & Hc' & _ & Happroved & _); [by vm_compute|].
  exists c'. split; [done|]. apply Happroved.
  vm_compute in Hc. injection Hc as <-. by vm_compute.
Defined.

(** C9. The duplicate-identifier check of [submit_claim] comes first: when
    the identifier of the claim is already stored the call returns false,
    raises nothing and changes nothing, whatever the patient and the amount
    of the claim are. *)
Theorem submit_claim_duplicate_first claim now w c :
  objects w !! claim = Some c →
  Claim.id c ∈ dom (claims (self w)) →
  submit_claim claim now w = (Return false, w).
Proof.
  intros Hc Hdup. rewrite submit_claim_eq, Hc. by rewrite bool_decide_eq_true_2.
Qed.

Lemma submit_claim_duplicate_first_witness :
  ∃ c, objects world_duplicate_constructed !! 3%nat = Some c ∧
       (Claim.patient_id c ∉ dom (patients (self world_duplicate_constructed))) ∧
       (max_claim_amount (self world_duplicate_constructed) < Claim.amount c)%Q ∧
       submit_claim 3%nat 10 world_duplicate_constructed
         = (Return false, world_duplicate_constructed).
Proof.
  exists (Claim.mk "C1" "P9" "PR1" 60000 "Large procedure" 738000
            PENDING (Some 9%Z) (Some 9%Z)).
  split; [by vm_compute|]. split; [|split].
  - apply (bool_decide_unpack _). by vm_compute.
  - by vm_compute.
  - eapply submit_claim_duplicate_first.
    + by vm_compute.
    + apply (bool_decide_unpack _). by vm_compute.
Defined.

(** C2, as stated, fails: an unregistered patient or an amount over the
    ceiling does not always make [submit_claim] raise. The claim object at
    reference 3 has both, and the call returns false, because its
    identifier is already stored. *)
Lemma submit_claim_errors_counterexample :
  ¬ (∀ claim now w c,
       objects w !! claim = Some c →
       (Claim.patient_id c ∉ dom (patients (self w)) →
          ∃ e, (submit_claim claim now w).1 = Raise e ∧
               kind_of e = Some ReferentialError) ∧
       ((max_claim_amount (self w) < Claim.amount c)%Q →
          ∃ e, (submit_claim claim now w).1 = Raise e ∧
               kind_of e = Some LimitExceededError)).
Proof.
  intros Hclaim.
  destruct (Hclaim 3%nat 10%Z world_duplicate_constructed
              (Claim.mk "C1" "P9" "PR1" 60000 "Large procedure" 738000
                 PENDING (Some 9%Z) (Some 9%Z))) as [_ Hlimit]; [by vm_compute|].
  destruct Hlimit as (e & He & _); [by vm_compute|].
  vm_compute in He. discriminate He.
Qed.

(** C2, amended. For a claim whose identifier is not stored yet: when its
    patient is not registered [submit_claim] raises the [ValueError] that
    the specification calls ReferentialError; when the patient is registered
    and the amount exceeds [max_claim_amount] it raises the one called
    LimitExceededError; in both cases the state, and so the [claims] dict,
    is as before. The ceiling of a new engine is 50000. *)
Theorem submit_claim_errors claim now w c :
  objects w !! claim = Some c →
  Claim.id c ∉ dom (claims (self w)) →
  (Claim.patient_id c ∉ dom (patients (self w)) →
     submit_claim claim now w = (Raise (ValueError Patient_not_found), w) ∧
     kind_of (ValueError Patient_not_found) = Some ReferentialError) ∧
  (Claim.patient_id c ∈ dom (patients (self w)) →
   (max_claim_amount (self w) < Claim.amount c)%Q →
     submit_claim claim now w =
       (Raise (ValueError
                 (Claim_amount_exceeds_maximum_limit_of (max_claim_amount (self w)))),
        w) ∧
     kind_of (ValueError
                (Claim_amount_exceeds_maximum_limit_of (max_claim_amount (self w))))
       = Some LimitExceededError) ∧
  (max_claim_amount ClaimProcessor_init == 50000)%Q.
Proof.
  intros Hc Hnew. rewrite submit_claim_eq, Hc.
  rewrite (bool_decide_eq_false_2 _ Hnew).
  split; [|split; [|done]].
  - intros Hp. by rewrite (bool_decide_eq_true_2 _ Hp).
  - intros Hp Hlimit. rewrite bool_decide_eq_false_2 by (intros Hn; by apply Hn).
    apply Qlt_not_le in Hlimit. rewrite <- Qle_bool_iff in Hlimit.
    by destruct (Qle_bool _ _).
Qed.

Lemma submit_claim_errors_witness :
  submit_claim 0%nat 2 world_unknown_patient
    = (Raise (ValueError Patient_not_found), world_unknown_patient).
Proof.
  eapply (submit_claim_errors 0%nat 2 world_unknown_patient
            (Claim.mk "C7" "P9" "PR1" 60000 "Large procedure" 738000
               PENDING (Some 1%Z) (Some 1%Z))).
  - by vm_compute.
  - apply (bool_decide_unpack _). by vm_compute.
  - apply (bool_decide_unpack _). by vm_compute.
Defined.

(** ** Patients *)

(** C6. [register_patient] with an identifier that is already registered
    returns false, raises nothing and leaves the state, and so the record
    stored first, as it is; with a new identifier it stores the patient and
    returns true. So of two calls with one identifier the second returns
    false and the record of the first stays. *)
Theorem register_patient_once patient w :
  (Patient.id patient ∈ dom (patients (self w)) →
     register_patient patient w = (Return false, w)) ∧
  (Patient.id patient ∉ dom (patients (self w)) →
     ∃ w', register_patient patient w = (Return true, w') ∧
       patients (self w') = <[Patient.id patient := patient]> (patients (self w)) ∧
       patients (self w') !! Patient.id patient = Some patient ∧
       ∀ second, Patient.id second = Patient.id patient →
         register_patient second w' = (Return false, w') ∧
         patients (self w') !! Patient.id second = Some patient).
Proof.
  split; intros Hp; rewrite register_patient_eq.
  - by rewrite (bool_decide_eq_true_2 _ Hp).
  - rewrite (bool_decide_eq_false_2 _ Hp). eexists; split; [done|].
    cbn. rewrite lookup_insert_eq. split; [done|]. split; [done|].
    intros second Hid. rewrite register_patient_eq, Hid. cbn.
    rewrite lookup_insert_eq. split; [|done].
    rewrite bool_decide_eq_true_2; [done|]. set_solver.
Qed.

Lemma register_patient_once_witness :
  register_patient
    (Patient.mk "P1" "Another" "other@example.org" 700000 "INS99999" None)
    world_C1_constructed
  = (Return false, world_C1_constructed) ∧
  patients (self world_C1_constructed) !! "P1" = Some P1.
Proof.
  split; [|by vm_compute].
  apply (register_patient_once
           (Patient.mk "P1" "Another" "other@example.org" 700000 "INS99999" None)
           world_C1_constructed).
  apply (bool_decide_unpack _). by vm_compute.
Defined.

(** ** Manual decisions *)

Lemma exec_decision_absorbing call w claim c :
  is_decision call →
  objects w !! claim = Some c →
  Claim.status c ∈ [APPROVED; REJECTED] →
  objects (exec call w) !! claim = Some c.
Proof.
  intros Hcall Hc Habs.
  destruct call as [| | |claim_id now|claim_id reason now]; try done; cbn;
    [rewrite approve_claim_eq|rewrite reject_claim_eq];
    (destruct (claims (self w) !! claim_id) as [claim'|]; [|done]);
    (destruct (objects w !! claim') as [c'|] eqn:Hc'; [|done]);
    (case_bool_decide; [done|]); cbn;
    (rewrite lookup_insert_ne; [done|]); intros ->; congruence.
Qed.

Lemma run_decisions_absorbing calls w claim c :
  Forall is_decision calls →
  objects w !! claim = Some c →
  Claim.status c ∈ [APPROVED; REJECTED] →
  objects (run calls w) !! claim = Some c.
Proof.
  intros Hcalls. revert w.
  induction Hcalls as [|call calls Hcall _ IH]; intros w Hc Habs; [done|].
  cbn. apply IH; [|done]. by apply exec_decision_absorbing.
Qed.

(** C3. [approve_claim] and [reject_claim] return false and change nothing
    when the claim is absent or its status is approved or rejected;
    otherwise they return true, and the claim read back afterwards has the
    status approved, respectively rejected, and [updated_at] equal to the
    current time, its other fields and the rest of the state being as
    before. A claim object whose status is approved or rejected is left as
    it is by every later sequence of [approve_claim] and [reject_claim]
    calls. *)
Theorem manual_decision_absorbing claim_id reason now w :
  (claims (self w) !! claim_id = None →
     approve_claim claim_id now w = (Return false, w) ∧
     reject_claim claim_id reason now w = (Return false, w)) ∧
  (∀ claim c,
     claims (self w) !! claim_id = Some claim →
     objects w !! claim = Some c →
     (Claim.status c ∈ [APPROVED; REJECTED] →
        approve_claim claim_id now w = (Return false, w) ∧
        reject_claim claim_id reason now w = (Return false, w)) ∧
     (Claim.status c ∉ [APPROVED; REJECTED] →
        (∃ w' c',
           approve_claim claim_id now w = (Return true, w') ∧
           claims (self w') !! claim_id = Some claim ∧
           objects w' !! claim = Some c' ∧
           Claim.status c' = APPROVED ∧
           Claim.updated_at c' = Some now ∧
           same_but_decision c c' ∧
           self w' = self w ∧
           ∀ other, other ≠ claim → objects w' !! other = objects w !! other) ∧
        (∃ w' c',
           reject_claim claim_id reason now w = (Return true, w') ∧
           claims (self w') !! claim_id = Some claim ∧
           objects w' !! claim = Some c' ∧
           Claim.status c' = REJECTED ∧
           Claim.updated_at c' = Some now ∧
           same_but_decision c c' ∧
           self w' = self w ∧
           ∀ other, other ≠ claim → objects w' !! other = objects w !! other)) ∧
     (Claim.status c ∈ [APPROVED; REJECTED] →
        ∀ calls, Forall is_decision calls →
          objects (run calls w) !! claim = Some c)).
Proof.
  rewrite approve_claim_eq, reject_claim_eq. split.
  - by intros ->.
  - intros claim c Hclaim Hc. rewrite Hclaim, Hc. split; [|split].
    + intros Habs. by rewrite (bool_decide_eq_true_2 _ Habs).
    + intros Hopen. rewrite (bool_decide_eq_false_2 _ Hopen).
      split; eexists _, _; (split; [reflexivity|]); cbn;
        rewrite lookup_insert_eq; repeat split; try done;
        intros other Hother; by rewrite lookup_insert_ne.
    + intros Habs calls Hcalls. by apply run_decisions_absorbing.
Qed.

Lemma manual_decision_absorbing_witness :
  ∃ w' c',
    approve_claim "C2" 7 (run (take 7 scenario) initial_world) = (Return true, w') ∧
    objects w' !! 1%nat = Some c' ∧
    Claim.status c' = APPROVED ∧
    Claim.updated_at c' = Some 7%Z.
Proof.
  destruct (manual_decision_absorbing "C2" EmptyString 7
              (run (take 7 scenario) initial_world)) as [_ Hstored].
  destruct (Hstored 1%nat
              (Claim.mk "C2" "P1" "PR1" 500 "Routine checkup" 738000
                 PROCESSING (Some 3%Z) (Some 4%Z)))
    as (_ & Hopen & _); [vm_compute; reflexivity|vm_compute; reflexivity|].
  destruct Hopen as [(w' & c' & Hcall & _ & Hc' & Hstatus & Hupdated & _) _].
  - apply (bool_decide_unpack _). vm_compute. reflexivity.
  - exists w', c'. repeat split; assumption.
Defined.

(** C10. When [approve_claim] or [reject_claim] returns true, the engine
    instance (the [claims] dict, the patients and both thresholds) is as
    before, every claim object other than the one stored under the
    identifier is as before, and that one differs from its old value in
    [status] and [updated_at] only. In a state where every key holds the
    claim of that identifier, the claim stored under any other identifier is
    as before. *)
Theorem manual_decision_frame claim_id reason now w w' :
  approve_claim claim_id now w = (Return true, w') ∨
  reject_claim claim_id reason now w = (Return true, w') →
  ∃ claim c c',
    claims (self w) !! claim_id = Some claim ∧
    objects w !! claim = Some c ∧
    objects w' = <[claim := c']> (objects w) ∧
    Claim.set_updated_at (Claim.updated_at c)
      (Claim.set_status (Claim.status c) c') = c ∧
    self w' = self w ∧
    (∀ other, other ≠ claim → objects w' !! other = objects w !! other) ∧
    (keys_consistent w →
       ∀ other_id, other_id ≠ claim_id → stored w' other_id = stored w other_id).
Proof.
  rewrite approve_claim_eq, reject_claim_eq. intros Hcall.
  destruct (claims (self w) !! claim_id) as [claim|] eqn:Hclaim;
    [|by destruct Hcall].
  destruct (objects w !! claim) as [c|] eqn:Hc; [|by destruct Hcall].
  case_bool_decide; [by destruct Hcall|].
  assert (∃ target, w' = set_objects <[claim := decided target now c]> w)
    as [target ->].
  { destruct Hcall as [[= <-]|[= <-]]; by eexists. }
  exists claim, c, (decided target now c). cbn.
  split; [done|]. split; [done|]. split; [done|].
  split; [by destruct c|]. split; [done|]. split.
  - intros other Hother. by rewrite lookup_insert_ne.
  - intros Hkeys other_id Hother. unfold stored. cbn.
    destruct (claims (self w) !! other_id) as [other|] eqn:Hstored; [|done].
    cbn. rewrite lookup_insert_ne; [done|]. intros <-.
    destruct (Hkeys _ _ Hclaim) as (c1 & Hc1 & Hid1).
    destruct (Hkeys _ _ Hstored) as (c2 & Hc2 & Hid2). congruence.
Qed.

(** ** Invariants of the reachable states *)

Lemma post_init_amount now1 now2 fields c :
  Claim.__post_init__ now1 now2 fields = Return c →
  (0 < Claim.amount c)%Q ∧ Claim.amount c = Claim.amount fields.
Proof.
  unfold Claim.__post_init__.
  set (c1 := if Claim.created_at fields is None then _ else _).
  set (c2 := if Claim.updated_at c1 is None then _ else _).
  assert (Claim.amount c2 = Claim.amount fields) as Hamount.
  { subst c1 c2. by destruct (Claim.created_at fields), (Claim.updated_at _). }
  destruct (Qle_bool (Claim.amount c2) 0) eqn:Hle; [done|].
  destruct (_ || _); [done|]. intros [= <-]. split; [|done].
  apply Qnot_le_lt. rewrite <- Qle_bool_iff. congruence.
Qed.

Lemma invariant_initial : invariant initial_world.
Proof. by split. Qed.

Lemma invariant_update w claim c c' :
  invariant w →
  objects w !! claim = Some c →
  Claim.id c' = Claim.id c →
  Claim.amount c' = Claim.amount c →
  Claim.status c' ≠ PENDING →
  invariant (set_objects <[claim := c']> w).
Proof.
  intros [Hkeys Hpos Hlimit Hpending Ht Hm] Hc Hid Hamount Hstatus.
  split; unfold keys_consistent in *; cbn; try done.
  - intros claim_id l Hl. destruct (Hkeys _ _ Hl) as (c0 & Hc0 & Hid0).
    destruct (decide (l = claim)) as [->|Hne].
    + rewrite lookup_insert_eq. exists c'. split; [done|]. congruence.
    + rewrite lookup_insert_ne by done. by exists c0.
  - intros l c0. destruct (decide (l = claim)) as [->|Hne].
    + rewrite lookup_insert_eq. intros [= <-]. rewrite Hamount. by eapply Hpos.
    + rewrite lookup_insert_ne by done. apply Hpos.
  - intros claim_id l c0 Hl. destruct (decide (l = claim)) as [->|Hne].
    + rewrite lookup_insert_eq. intros [= <-]. rewrite Hamount. by eapply Hlimit.
    + rewrite lookup_insert_ne by done. by eapply Hlimit.
  - intros claim_id l c0 Hl. destruct (decide (l = claim)) as [->|Hne].
    + rewrite lookup_insert_eq. by intros [= <-].
    + rewrite lookup_insert_ne by done. by eapply Hpending.
Qed.

Lemma invariant_exec call w : invariant w → invariant (exec call w).
Proof.
  intros Hinv.
  destruct call as [fields now1 now2|patient|claim now|claim_id now|claim_id reason now];
    cbn.
  - unfold Claim_new.
    destruct (Claim.__post_init__ now1 now2 fields) as [c|] eqn:Hinit; [|done].
    apply post_init_amount in Hinit as [Hpos _].
    assert (objects w !! fresh (dom (objects w)) = None) as Hfresh.
    { apply not_elem_of_dom, is_fresh. }
    destruct Hinv as [Hkeys Hpos' Hlimit Hpending Ht Hm]. split; unfold keys_consistent in *; cbn; try done.
    + intros claim_id l Hl. destruct (Hkeys _ _ Hl) as (c0 & Hc0 & Hid0).
      exists c0. split; [|done]. rewrite lookup_insert_ne; [done|]. congruence.
    + intros l c0. destruct (decide (l = fresh (dom (objects w)))) as [->|Hne].
      * rewrite lookup_insert_eq. by intros [= <-].
      * rewrite lookup_insert_ne by done. apply Hpos'.
    + intros claim_id l c0 Hl. destruct (Hkeys _ _ Hl) as (c1 & Hc1 & _).
      rewrite lookup_insert_ne by congruence. by eapply Hlimit.
    + intros claim_id l c0 Hl. destruct (Hkeys _ _ Hl) as (c1 & Hc1 & _).
      rewrite lookup_insert_ne by congruence. by eapply Hpending.
  - rewrite register_patient_eq. case_bool_decide; [done|]. by destruct Hinv.
  - rewrite submit_claim_eq.
    destruct (objects w !! claim) as [c|] eqn:Hc; [|done].
    case_bool_decide as Hdup; [done|]. case_bool_decide; [done|].
    destruct (Qle_bool (Claim.amount c) _) eqn:Hle; [|done]. cbn.
    apply Qle_bool_iff in Hle.
    destruct Hinv as [Hkeys Hpos Hlimit Hpending Ht Hm].
    split; unfold keys_consistent in *; cbn; try done.
    + intros claim_id l. destruct (decide (claim_id = Claim.id c)) as [->|Hne].
      * rewrite lookup_insert_eq. intros [= <-]. rewrite lookup_insert_eq. by eexists.
      * rewrite lookup_insert_ne by done. intros Hl.
        destruct (Hkeys _ _ Hl) as (c0 & Hc0 & Hid0).
        exists c0. split; [|done]. rewrite lookup_insert_ne; [done|]. congruence.
    + intros l c0. destruct (decide (l = claim)) as [->|Hne].
      * rewrite lookup_insert_eq. intros [= <-]. exact (Hpos _ _ Hc).
      * rewrite lookup_insert_ne by done. apply Hpos.
    + intros claim_id l c0 Hl. destruct (decide (l = claim)) as [->|Hne].
      * rewrite lookup_insert_eq. intros [= <-]. exact Hle.
      * rewrite lookup_insert_ne by done.
        destruct (decide (claim_id = Claim.id c)) as [->|Hne'].
        -- rewrite lookup_insert_eq in Hl. congruence.
        -- rewrite lookup_insert_ne in Hl by done. by eapply Hlimit.
    + intros claim_id l c0 Hl. destruct (decide (l = claim)) as [->|Hne].
      * rewrite lookup_insert_eq. intros [= <-]. apply auto_decision_cases.
      * rewrite lookup_insert_ne by done.
        destruct (decide (claim_id = Claim.id c)) as [->|Hne'].
        -- rewrite lookup_insert_eq in Hl. congruence.
        -- rewrite lookup_insert_ne in Hl by done. by eapply Hpending.
  - rewrite approve_claim_eq.
    destruct (claims (self w) !! claim_id) as [claim|]; [|done].
    destruct (objects w !! claim) as [c|] eqn:Hc; [|done].
    case_bool_decide; [done|]. cbn. by apply invariant_update with (c := c).
  - rewrite reject_claim_eq.
    destruct (claims (self w) !! claim_id) as [claim|]; [|done].
    destruct (objects w !! claim) as [c|] eqn:Hc; [|done].
    case_bool_decide; [done|]. cbn. by apply invariant_update with (c := c).
Qed.

Lemma invariant_run calls w : invariant w → invariant (run calls w).
Proof.
  revert w. induction calls as [|call calls IH]; intros w Hinv; [done|].
  cbn. by apply IH, invariant_exec.
Qed.

Lemma reachable_invariant w : reachable w → invariant w.
Proof. intros [calls ->]. apply invariant_run, invariant_initial. Qed.

Lemma reachable_keys_consistent w : reachable w → keys_consistent w.
Proof. intros Hw. by apply reachable_invariant. Qed.

(** A stored claim is never pending, in any reachable state. *)
Lemma reachable_never_pending w claim_id c :
  reachable w → stored w claim_id = Some c → Claim.status c ≠ PENDING.
Proof.
  intros Hinv%reachable_invariant. unfold stored.
  destruct (claims (self w) !! claim_id) as [claim|] eqn:Hclaim; [|done].
  cbn. by eapply inv_never_pending.
Qed.

Lemma manual_decision_frame_witness :
  stored (approve_claim "C2" 7 (run (take 7 scenario) initial_world)).2 "C1"
    = stored (run (take 7 scenario) initial_world) "C1".
Proof.
  destruct (manual_decision_frame "C2" EmptyString 7
              (run (take 7 scenario) initial_world)
              (approve_claim "C2" 7 (run (take 7 scenario) initial_world)).2)
    as (claim & c & c' & _ & _ & _ & _ & _ & _ & Hkey); [left; by vm_compute|].
  apply Hkey; [|done].
  apply reachable_keys_consistent. by eexists.
Defined.

(** C4, as stated, fails: construction checks that the amount is positive
    and knows no ceiling. The claim object at reference 0 was constructed
    with amount 60000. *)
Lemma claim_amount_bounds_counterexample :
  ¬ (∀ w, reachable w → ∀ claim c, objects w !! claim = Some c →
       (0 < Claim.amount c)%Q ∧ (Claim.amount c <= 50000)%Q).
Proof.
  intros Hclaim.
  destruct (Hclaim world_unknown_patient (ex_intro _ _ eq_refl) 0%nat
              (Claim.mk "C7" "P9" "PR1" 60000 "Large procedure" 738000
                 PENDING (Some 1%Z) (Some 1%Z))) as [_ Hle]; [by vm_compute|].
  by vm_compute in Hle.
Qed.

(** C4, amended. In every state reached through the constructor and the
    methods of the engine, every claim object has amount > 0, and every
    claim that [submit_claim] has stored has amount <= max_claim_amount,
    which is 50000. *)
Theorem claim_amount_bounds w :
  reachable w →
  (∀ claim c, objects w !! claim = Some c → (0 < Claim.amount c)%Q) ∧
  (∀ claim_id c, stored w claim_id = Some c →
     (Claim.amount c <= max_claim_amount (self w))%Q) ∧
  max_claim_amount (self w) = 50000%Q.
Proof.
  intros [Hkeys Hpos Hlimit Hpending Ht Hm]%reachable_invariant.
  split; [done|]. split; [|done].
  intros claim_id c. unfold stored.
  destruct (claims (self w) !! claim_id) as [claim|] eqn:Hclaim; [|done].
  cbn. by eapply Hlimit.
Qed.

Lemma claim_amount_bounds_witness :
  (15000 <= max_claim_amount (self (run scenario initial_world)))%Q.
Proof.
  destruct (claim_amount_bounds (run scenario initial_world)) as (_ & Hlimit & _);
    [by exists scenario|].
  apply (Hlimit "C3"
           (Claim.mk "C3" "P1" "PR1" 15000 "Routine checkup" 738000
              REJECTED (Some 5%Z) (Some 8%Z))).
  by vm_compute.
Defined.

(** ** The approved total *)

Lemma fold_left_Qplus xs a : (fold_left Qplus xs a == a + foldr Qplus 0 xs)%Q.
Proof.
  revert a. induction xs as [|x xs IH]; intros a; cbn.
  - by rewrite Qplus_0_r.
  - rewrite IH. by rewrite Qplus_assoc.
Qed.

Lemma sum_cons x xs : (sum (x :: xs) == x + sum xs)%Q.
Proof.
  unfold sum. cbn. rewrite !fold_left_Qplus, !Qplus_0_l. reflexivity.
Qed.

Lemma sum_Permutation xs ys : xs ≡ₚ ys → (sum xs == sum ys)%Q.
Proof.
  induction 1 as [|x xs ys _ IH|x y xs|xs ys zs _ IH1 _ IH2].
  - reflexivity.
  - by rewrite !sum_cons, IH.
  - rewrite !sum_cons, !Qplus_assoc. by rewrite (Qplus_comm y x).
  - by rewrite IH1.
Qed.

Lemma total_of_Permutation patient_id cs cs' :
  cs ≡ₚ cs' → (total_of patient_id cs == total_of patient_id cs')%Q.
Proof. intros Hperm. unfold total_of. apply sum_Permutation. by rewrite Hperm. Qed.

Lemma total_of_cons patient_id c cs :
  (total_of patient_id (c :: cs) ==
     (if decide (is_approved_for patient_id c) then Claim.amount c else 0)
     + total_of patient_id cs)%Q.
Proof.
  unfold total_of. rewrite filter_cons. case_decide.
  - by rewrite fmap_cons, sum_cons.
  - by rewrite Qplus_0_l.
Qed.

Lemma sum_amounts_insert m claim_id c :
  m !! claim_id = None →
  (sum_amounts (<[claim_id := c]> m) == Claim.amount c + sum_amounts m)%Q.
Proof.
  intros Hfresh. unfold sum_amounts.
  rewrite (map_fold_insert Qeq (λ _ c acc, (acc + Claim.amount c)%Q)); [|..|done].
  - apply Qplus_comm.
  - intros _ z a b Hab. by rewrite Hab.
  - intros _ _ z1 z2 y _ _ _. rewrite <- !Qplus_assoc.
    by rewrite (Qplus_comm (Claim.amount z2)).
Qed.

(** The list pipeline of the method and the sum over the selected stored
    claims agree. *)
Lemma total_of_values patient_id w :
  (total_of patient_id (omap (λ claim, objects w !! claim) (values (claims (self w))))
   == sum_amounts (approved_claims_of patient_id w))%Q.
Proof.
  unfold approved_claims_of, stored_claims, values.
  induction (claims (self w)) as [|claim_id claim m Hfresh IH] using map_ind.
  - rewrite map_to_list_empty, omap_empty, map_filter_empty. reflexivity.
  - rewrite (total_of_Permutation _ _
               (omap (λ claim, objects w !! claim) ((claim_id, claim) :: map_to_list m).*2)).
    2:{ by rewrite map_to_list_insert. }
    cbn [fmap list_fmap snd omap list_omap].
    destruct (objects w !! claim) as [c|] eqn:Hc.
    + rewrite total_of_cons, IH.
      rewrite (omap_insert_Some _ _ _ _ c) by done.
      assert (omap (λ claim, objects w !! claim) m !! claim_id = None) as Hnone.
      { by rewrite lookup_omap, Hfresh. }
      case_decide as Hp.
      * rewrite map_filter_insert_True by done.
        rewrite sum_amounts_insert; [reflexivity|].
        by rewrite map_lookup_filter_None_2; [|left].
      * rewrite map_filter_insert_not' by (done || by rewrite Hnone).
        by rewrite Qplus_0_l.
    + rewrite IH. rewrite omap_insert_None by done.
      rewrite delete_id by (by rewrite lookup_omap, Hfresh). reflexivity.
Qed.

Lemma for_each_getattr claims w :
  Forall (λ claim, is_Some (objects w !! claim)) claims →
  for_each (λ claim, getattr claim (λ c, c)) claims w
    = (Return (omap (λ claim, objects w !! claim) claims), w).
Proof.
  induction 1 as [|claim claims [c Hc] _ IH]; [done|].
  cbn [for_each]. unfold mbind, M_bind at 1. unfold getattr at 1. rewrite Hc.
  unfold mbind, M_bind at 1. rewrite IH. cbn. by rewrite Hc.
Qed.

Lemma stored_lookup w claim_id : stored_claims w !! claim_id = stored w claim_id.
Proof. unfold stored_claims, stored. by rewrite lookup_omap. Qed.

(** The list that the comprehension builds holds one entry for every stored
    identifier whose claim is selected, in some order. *)
Lemma approved_claims_Permutation patient_id w :
  approved_claims patient_id w ≡ₚ (map_to_list (approved_claims_of patient_id w)).*2.
Proof.
  unfold approved_claims, approved_claims_of, stored_claims, values.
  induction (claims (self w)) as [|claim_id claim m Hfresh IH] using map_ind.
  - by rewrite map_to_list_empty, omap_empty, map_filter_empty, map_to_list_empty.
  - rewrite map_to_list_insert by done. cbn [fmap list_fmap snd omap list_omap].
    assert (omap (λ claim, objects w !! claim) m !! claim_id = None) as Hnone.
    { by rewrite lookup_omap, Hfresh. }
    destruct (objects w !! claim) as [c|] eqn:Hc.
    + rewrite (omap_insert_Some _ _ _ _ c) by done. rewrite filter_cons.
      case_decide as Hp.
      * rewrite map_filter_insert_True by done.
        rewrite map_to_list_insert by (apply map_lookup_filter_None_2; by left).
        cbn. by rewrite IH.
      * rewrite map_filter_insert_not' by (done || by rewrite Hnone). done.
    + rewrite omap_insert_None by done.
      rewrite delete_id by done. done.
Qed.




(** ** Sessions *)

Lemma create_session_eq user_id token a :
  create_session user_id token a
    = (Return token, set_active_sessions <[token := user_id]> a).
Proof. done. Qed.

Lemma validate_session_eq token a :
  validate_session token a = (Return (active_sessions a !! token), a).
Proof. done. Qed.

Lemma logout_eq token a :
  logout token a =
    if bool_decide (token ∈ dom (active_sessions a)) then
      (Return true, set_active_sessions (delete token) a)
    else (Return false, a).
Proof. unfold logout. unfold_M. by case_bool_decide. Qed.

Lemma register_user_eq user_id email password user_type now a :
  register_user user_id email password user_type now a =
    if bool_decide (user_id ∈ dom (users a)) then (Return false, a)
    else if invalid_email email then (Raise (ValueError Invalid_email_format), a)
    else if (String.length password <? 8)%nat then
      (Raise (ValueError Password_must_be_at_least_8_characters_long), a)
    else
      (Return true,
       set_users <[user_id := User.mk email password user_type now true]> a).
Proof.
  unfold register_user. unfold_M. case_bool_decide; [done|].
  destruct (invalid_email email); [done|]. by destruct (_ <? _)%nat.
Qed.

Lemma auth_exec_keeps_session token user_id call a :
  keeps_session token user_id call →
  active_sessions a !! token = Some user_id →
  active_sessions (auth_exec call a) !! token = Some user_id.
Proof.
  intros Hcall Ha.
  destruct call as [user_id' email password user_type now|user_id' token'|token']; cbn.
  - rewrite register_user_eq.
    by repeat (case_bool_decide || destruct (invalid_email _) || destruct (_ <? _)%nat).
  - cbn in Hcall. rewrite create_session_eq. cbn.
    destruct (decide (token' = token)) as [->|Hne].
    + rewrite lookup_insert_eq. by rewrite Hcall.
    + by rewrite lookup_insert_ne.
  - rewrite logout_eq. case_bool_decide; [|done]. cbn. by rewrite lookup_delete_ne.
Qed.

Lemma auth_run_keeps_session token user_id calls a :
  Forall (keeps_session token user_id) calls →
  active_sessions a !! token = Some user_id →
  active_sessions (auth_run calls a) !! token = Some user_id.
Proof.
  intros Hcalls. revert a.
  induction Hcalls as [|call calls Hcall _ IH]; intros a Ha; [done|].
  cbn. by apply IH, auth_exec_keeps_session.
Qed.

(** C7. [create_session] returns the token it has drawn; from then on, as
    long as no call logs this token out (and the token is not drawn again
    for another user), [validate_session] of the token returns the user.
    [logout] returns true exactly when the token is an active session, and
    after it [validate_session] of the token returns none. *)
Theorem session_round_trip user_id token a calls :
  Forall (keeps_session token user_id) calls →
  (create_session user_id token a).1 = Return token ∧
  (let a' := auth_run calls (create_session user_id token a).2 in
   validate_session token a' = (Return (Some user_id), a') ∧
   (logout token a').1 = Return true ∧
   validate_session token (logout token a').2
     = (Return None, (logout token a').2)) ∧
  (∀ b, (logout token b).1
          = Return (bool_decide (is_Some (active_sessions b !! token))) ∧
        validate_session token (logout token b).2 = (Return None, (logout token b).2) ∧
        ∀ other, other ≠ token →
          active_sessions (logout token b).2 !! other = active_sessions b !! other).
Proof.
  intros Hcalls.
  assert (∀ b, (logout token b).1
            = Return (bool_decide (is_Some (active_sessions b !! token))) ∧
          validate_session token (logout token b).2
            = (Return None, (logout token b).2) ∧
          ∀ other, other ≠ token →
            active_sessions (logout token b).2 !! other = active_sessions b !! other)
    as Hlogout.
  { intros b. rewrite logout_eq, validate_session_eq.
    case_bool_decide as Hin; cbn.
    - apply elem_of_dom in Hin. rewrite bool_decide_eq_true_2 by done.
      rewrite lookup_delete_eq. split; [done|]. split; [done|].
      intros other Hother. by rewrite lookup_delete_ne.
    - rewrite bool_decide_eq_false_2 by (by rewrite <- elem_of_dom).
      apply not_elem_of_dom in Hin. by rewrite Hin. }
  split; [done|]. split; [|done]. cbn zeta.
  set (a' := auth_run calls _).
  assert (active_sessions a' !! token = Some user_id) as Ha'.
  { apply auth_run_keeps_session; [done|].
    rewrite create_session_eq. cbn. by rewrite lookup_insert_eq. }
  destruct (Hlogout a') as (Hret & Hnone & _).
  rewrite validate_session_eq, Ha'. split; [done|]. split; [|done].
  rewrite Hret, Ha'. by rewrite bool_decide_eq_true_2.
Qed.

Lemma session_round_trip_witness :
  validate_session "tok-1"
    (auth_run [Call_create_session "U002" "tok-2"; Call_logout "tok-2"]
       (create_session "U001" "tok-1" AuthenticationService_init).2)
  = (Return (Some "U001"),
     auth_run [Call_create_session "U002" "tok-2"; Call_logout "tok-2"]
       (create_session "U001" "tok-1" AuthenticationService_init).2).
Proof.
  apply (session_round_trip "U001" "tok-1" AuthenticationService_init
           [Call_create_session "U002" "tok-2"; Call_logout "tok-2"]).
  repeat constructor; cbn; by intros [=].
Defined.

(** ** The language of a regular expression *)

Lemma string_app_cons a (s1 s2 : string) : String a s1 ++ s2 = String a (s1 ++ s2).
Proof. reflexivity. Qed.

Lemma string_app_assoc (s1 s2 s3 : string) : (s1 ++ s2) ++ s3 = s1 ++ (s2 ++ s3).
Proof.
  induction s1 as [|a s1 IH]; [done|]. by rewrite !string_app_cons, IH.
Qed.

Lemma string_app_eq_nil (s1 s2 : string) :
  s1 ++ s2 = EmptyString → s1 = EmptyString ∧ s2 = EmptyString.
Proof. destruct s1; [done|]. by rewrite string_app_cons. Qed.

Lemma matches_Seq_inv r1 r2 s :
  matches (Seq r1 r2) s → ∃ s1 s2, s = s1 ++ s2 ∧ matches r1 s1 ∧ matches r2 s2.
Proof. inversion 1; subst. by eexists _, _. Qed.

Lemma matches_Alt_inv r1 r2 s : matches (Alt r1 r2) s → matches r1 s ∨ matches r2 s.
Proof. inversion 1; subst; [by left|by right]. Qed.

Lemma matches_Star_cons_inv r a s :
  matches (Star r) (String a s) →
  ∃ s1 s2, s = s1 ++ s2 ∧ matches r (String a s1) ∧ matches (Star r) s2.
Proof.
  remember (Star r) as r' eqn:Hr. remember (String a s) as t eqn:Ht.
  intros Hm. revert a s Hr Ht.
  induction Hm as [| | | | | | |r0 s1 s2 Hm1 _ Hm2 IH2]; intros b t Hr Ht; try done.
  injection Hr as ->. destruct s1 as [|a1 s1].
  - by apply IH2.
  - rewrite string_app_cons in Ht. injection Ht as -> <-. by eexists _, _.
Qed.

Lemma nullable_matches r : nullable r = true ↔ matches r EmptyString.
Proof.
  split.
  - induction r as [| | | |r1 IH1 r2 IH2|r1 IH1 r2 IH2|r IH]; cbn; try done.
    + intros _. constructor.
    + intros [H1 H2]%andb_true_iff.
      change EmptyString with (EmptyString ++ EmptyString). constructor; auto.
    + intros [H1|H2]%orb_true_iff; [apply matches_Alt_l|apply matches_Alt_r]; auto.
    + intros _. constructor.
  - induction r as [| | | |r1 IH1 r2 IH2|r1 IH1 r2 IH2|r IH]; cbn; try done;
      try by inversion 1.
    + intros (s1 & s2 & [-> ->]%eq_sym%string_app_eq_nil & H1 & H2)%matches_Seq_inv.
      rewrite IH1, IH2; done.
    + intros [H1|H2]%matches_Alt_inv; apply orb_true_iff; auto.
Qed.

Lemma deriv_matches a r s : matches (deriv a r) s ↔ matches r (String a s).
Proof.
  revert s. induction r as [| |c|c|r1 IH1 r2 IH2|r1 IH1 r2 IH2|r IH]; intros s; cbn.
  - split; inversion 1.
  - split; inversion 1.
  - destruct (Ascii.eqb_spec a c) as [->|Hne]; split; inversion 1; subst;
      try done; constructor.
  - destruct (Ascii.eqb_spec a c) as [->|Hne]; split; inversion 1; subst;
      try done; by constructor.
  - assert (matches (Seq (deriv a r1) r2) s →  matches (Seq r1 r2) (String a s))
      as Hseq.
    { intros (s1 & s2 & -> & H1 & H2)%matches_Seq_inv.
      apply IH1 in H1. by apply (matches_Seq _ _ (String a s1) s2). }
    split.
    + destruct (nullable r1) eqn:Hnull; [|done].
      intros [H|H]%matches_Alt_inv; [auto|].
      apply IH2 in H. apply nullable_matches in Hnull.
      by apply (matches_Seq _ _ EmptyString (String a s)).
    + intros (s1 & s2 & Hs & H1 & H2)%matches_Seq_inv.
      destruct s1 as [|a1 s1].
      * change (String a s = s2) in Hs. subst s2. apply nullable_matches in H1 as ->.
        apply matches_Alt_r. by apply IH2.
      * rewrite string_app_cons in Hs. injection Hs as <- ->. apply IH1 in H1.
        assert (matches (Seq (deriv a r1) r2) (s1 ++ s2)) by by constructor.
        destruct (nullable r1); [by apply matches_Alt_l|done].
  - split.
    + intros [H|H]%matches_Alt_inv; [apply matches_Alt_l, IH1|apply matches_Alt_r, IH2];
        done.
    + intros [H|H]%matches_Alt_inv; [apply matches_Alt_l, IH1|apply matches_Alt_r, IH2];
        done.
  - split.
    + intros (s1 & s2 & -> & H1 & H2)%matches_Seq_inv.
      apply IH in H1. by apply (matches_Star_cons _ (String a s1) s2).
    + intros (s1 & s2 & -> & H1 & H2)%matches_Star_cons_inv.
      constructor; [by apply IH|done].
Qed.

Lemma fullmatch_matches r s : fullmatch r s = true ↔ matches r s.
Proof.
  revert r. induction s as [|a s IH]; intros r; cbn.
  - apply nullable_matches.
  - by rewrite IH, deriv_matches.
Qed.

Lemma free_of_app c (s1 s2 : string) :
  free_of c (s1 ++ s2) ↔ free_of c s1 ∧ free_of c s2.
Proof.
  induction s1 as [|a s1 IH]; [cbn; tauto|].
  rewrite string_app_cons. cbn. rewrite IH. tauto.
Qed.

Lemma matches_Star_NotChr c s : matches (Star (NotChr c)) s ↔ free_of c s.
Proof.
  split.
  - remember (Star (NotChr c)) as r eqn:Hr. intros Hm.
    induction Hm as [| | | | | | |r0 s1 s2 Hm1 _ Hm2 IH2]; try done.
    injection Hr as ->. apply free_of_app. split; [|auto].
    inversion Hm1; subst. by cbn.
  - induction s as [|a s IH]; [constructor|].
    intros [Ha Hs]. apply (matches_Star_cons _ (String a EmptyString) s); [|auto].
    by constructor.
Qed.

Lemma matches_Plus_NotChr c s :
  matches (Plus (NotChr c)) s ↔ s ≠ EmptyString ∧ free_of c s.
Proof.
  unfold Plus. split.
  - intros (s1 & s2 & -> & H1 & H2%matches_Star_NotChr)%matches_Seq_inv.
    inversion H1; subst. by rewrite string_app_cons.
  - destruct s as [|a s]; [by intros [? _]|]. intros [_ [Ha Hs]].
    apply (matches_Seq _ _ (String a EmptyString) s); [by constructor|].
    by apply matches_Star_NotChr.
Qed.

Lemma matches_email_pattern s : matches email_pattern s ↔ email_shape s.
Proof.
  unfold email_pattern, email_shape. split.
  - intros (local & s1 & -> & Hlocal & H1)%matches_Seq_inv.
    apply matches_Seq_inv in H1 as (at_ & s2 & -> & Hat & H2).
    apply matches_Seq_inv in H2 as (domain & s3 & -> & Hdomain & H3).
    apply matches_Seq_inv in H3 as (dot & tld & -> & Hdot & Htld).
    inversion Hat; subst. inversion Hdot; subst.
    exists local, domain, tld. by rewrite <- !matches_Plus_NotChr.
  - intros (local & domain & tld & -> & Hlocal & Hdomain & Htld).
    rewrite <- matches_Plus_NotChr in Hlocal, Hdomain, Htld.
    repeat (constructor; try done).
Qed.

Lemma chomp_Some s s' : chomp s = Some s' → s = s' ++ String "010" EmptyString.
Proof.
  revert s'. induction s as [|a s IH]; intros s'; [done|].
  destruct s as [|b s].
  - cbn. destruct (Ascii.eqb_spec a "010") as [->|]; [|done]. by intros [= <-].
  - change (chomp (String a (String b s))) with (String a <$> chomp (String b s)).
    destruct (chomp (String b s)) as [t|]; [|done].
    intros [= <-]. by rewrite string_app_cons, <- (IH t).
Qed.

(** The check of the source accepts exactly the strings of the shape
    [local@domain.tld]. *)
Lemma invalid_email_shape email : invalid_email email = false ↔ email_shape email.
Proof.
  unfold invalid_email, re_match_anchored.
  rewrite orb_false_iff, negb_false_iff, orb_true_iff, bool_decide_eq_false.
  rewrite fullmatch_matches, matches_email_pattern. split.
  - intros [_ [Hshape|Hchomp]]; [done|].
    destruct (chomp email) as [s|] eqn:Hs; [|done]. cbn in Hchomp.
    apply chomp_Some in Hs as ->.
    apply fullmatch_matches, matches_email_pattern in Hchomp
      as (local & domain & tld & -> & Hlocal & Hdomain & [Htld Hfree]).
    exists local, domain, (tld ++ String "010" EmptyString).
    split; [by rewrite !string_app_assoc|]. split; [done|]. split; [done|]. split.
    + by destruct tld.
    + apply free_of_app. by cbn.
  - intros Hshape. split; [|by left].
    destruct Hshape as (local & domain & tld & -> & [Hlocal _] & _).
    by destruct local.
Qed.

(** ** Users *)

(** C8, as stated, fails: a malformed email or a short password does not
    always make [register_user] raise. For the identifier [U001], which
    exists, the call returns false with both. *)
Lemma register_user_cases_counterexample :
  ¬ (∀ user_id email password user_type now a,
       ¬ email_shape email ∨ (String.length password < 8)%nat →
       ∃ e, (register_user user_id email password user_type now a).1 = Raise e ∧
            kind_of e = Some ValidationError).
Proof.
  intros Hclaim.
  destruct (Hclaim "U001" "invalid-email" "short" PROVIDER 2%Z service_U001)
    as (e & He & _).
  - right. cbn. lia.
  - vm_compute in He. discriminate He.
Qed.

(** C8, amended. [register_user] returns false and changes nothing when
    the identifier already exists. Otherwise it raises the [ValueError]
    that the specification calls ValidationError when the email does not
    have the shape [local@domain.tld] or the password has fewer than 8
    characters, and changes nothing; otherwise it stores the user with the
    active flag true and returns true. *)
Theorem register_user_cases user_id email password user_type now a :
  (user_id ∈ dom (users a) →
     register_user user_id email password user_type now a = (Return false, a)) ∧
  (user_id ∉ dom (users a) →
     (¬ email_shape email ∨ (String.length password < 8)%nat →
        ∃ e, register_user user_id email password user_type now a = (Raise e, a) ∧
             kind_of e = Some ValidationError) ∧
     (email_shape email → (8 ≤ String.length password)%nat →
        ∃ user,
          register_user user_id email password user_type now a
            = (Return true, set_users <[user_id := user]> a) ∧
          User.email user = email ∧ User.password user = password ∧
          User.user_type user = user_type ∧ User.is_active user = true)).
Proof.
  rewrite register_user_eq. split; intros Hid.
  - by rewrite (bool_decide_eq_true_2 _ Hid).
  - rewrite (bool_decide_eq_false_2 _ Hid).
    pose proof (invalid_email_shape email) as Hshape.
    destruct (invalid_email email).
    + split; [by eexists|]. intros Hemail. apply Hshape in Hemail. done.
    + destruct (Nat.ltb_spec (String.length password) 8) as [Hshort|Hlong].
      * split; [by eexists|]. lia.
      * split; [|by eexists].
        intros [Hemail|Hshort]; [|lia]. by destruct Hemail; apply Hshape.
Qed.

Lemma register_user_cases_witness :
  register_user "U001" "invalid-email" "short" PROVIDER 2 service_U001
    = (Return false, service_U001).
Proof.
  apply (register_user_cases "U001" "invalid-email" "short" PROVIDER 2 service_U001).
  apply (bool_decide_unpack _). by vm_compute.
Defined.

(** * Further properties of the code *)

(** ** What a run of calls keeps *)

Lemma run_cons call calls w : run (call :: calls) w = run calls (exec call w).
Proof. reflexivity. Qed.

Lemma run_app calls1 calls2 w : run (calls1 ++ calls2) w = run calls2 (run calls1 w).
Proof. apply fold_left_app. Qed.

Lemma exec_patients call w patient_id patient :
  patients (self w) !! patient_id = Some patient →
  patients (self (exec call w)) !! patient_id = Some patient.
Proof.
  intros Hp.
  destruct call as [fields now1 now2|p|claim now|claim_id now|claim_id reason now]; cbn.
  - unfold Claim_new. by destruct (Claim.__post_init__ _ _ _).
  - rewrite register_patient_eq. case_bool_decide as Hin; [done|]. cbn.
    rewrite lookup_insert_ne; [done|]. intros <-.
    apply Hin, elem_of_dom. by eexists.
  - rewrite submit_claim_eq. destruct (objects w !! claim); [|done].
    by repeat (case_bool_decide || destruct (negb _)).
  - rewrite approve_claim_eq. destruct (claims (self w) !! claim_id) as [l|]; [|done].
    destruct (objects w !! l); [|done]. by case_bool_decide.
  - rewrite reject_claim_eq. destruct (claims (self w) !! claim_id) as [l|]; [|done].
    destruct (objects w !! l); [|done]. by case_bool_decide.
Qed.

(** X1. Patients are never removed or replaced: a patient that
    [get_patient] returns is returned after every further run of calls. *)
Theorem get_patient_persists calls w patient_id patient :
  get_patient patient_id w = (Return (Some patient), w) →
  get_patient patient_id (run calls w) = (Return (Some patient), run calls w).
Proof.
  unfold get_patient. unfold_M. intros [= Hp].
  assert (patients (self (run calls w)) !! patient_id = Some patient) as ->; [|done].
  revert w Hp. induction calls as [|call calls IH]; intros w Hp; [done|].
  cbn. by apply IH, exec_patients.
Qed.

Lemma get_patient_persists_witness :
  get_patient "P1" (run scenario initial_world)
    = (Return (Some P1), run scenario initial_world).
Proof.
  apply (get_patient_persists (drop 1 scenario)
           (run (take 1 scenario) initial_world) "P1" P1).
  by vm_compute.
Defined.

Lemma exec_thresholds call w :
  auto_approve_threshold (self (exec call w)) = auto_approve_threshold (self w) ∧
  max_claim_amount (self (exec call w)) = max_claim_amount (self w).
Proof.
  destruct call as [fields now1 now2|p|claim now|claim_id now|claim_id reason now]; cbn.
  - unfold Claim_new. by destruct (Claim.__post_init__ _ _ _).
  - rewrite register_patient_eq. by case_bool_decide.
  - rewrite submit_claim_eq. destruct (objects w !! claim); [|done].
    by repeat (case_bool_decide || destruct (negb _)).
  - rewrite approve_claim_eq. destruct (claims (self w) !! claim_id) as [l|]; [|done].
    destruct (objects w !! l); [|done]. by case_bool_decide.
  - rewrite reject_claim_eq. destruct (claims (self w) !! claim_id) as [l|]; [|done].
    destruct (objects w !! l); [|done]. by case_bool_decide.
Qed.

(** X2. No constructor or method call changes the two thresholds of the
    engine, from whatever state a run starts. *)
Theorem run_thresholds calls w :
  auto_approve_threshold (self (run calls w)) = auto_approve_threshold (self w) ∧
  max_claim_amount (self (run calls w)) = max_claim_amount (self w).
Proof.
  revert w. induction calls as [|call calls IH]; intros w; [done|].
  rewrite run_cons. destruct (IH (exec call w)) as [-> ->]. apply exec_thresholds.
Qed.

Lemma stored_Some w claim_id c :
  stored w claim_id = Some c ↔
  ∃ claim, claims (self w) !! claim_id = Some claim ∧ objects w !! claim = Some c.
Proof.
  unfold stored. destruct (claims (self w) !! claim_id) as [claim|]; cbn.
  - split; [by exists claim|]. by intros (? & [= <-] & ?).
  - split; [done|]. by intros (? & ? & ?).
Qed.

Lemma same_but_decision_refl c : same_but_decision c c.
Proof. by repeat split. Qed.

Lemma same_but_decision_decided target now c : same_but_decision c (decided target now c).
Proof. by repeat split. Qed.

Lemma same_but_decision_trans c1 c2 c3 :
  same_but_decision c1 c2 → same_but_decision c2 c3 → same_but_decision c1 c3.
Proof.
  intros (? & ? & ? & ? & ? & ? & ?) (? & ? & ? & ? & ? & ? & ?).
  repeat split; congruence.
Qed.

Lemma transition_refl s : transition s s.
Proof. by left. Qed.

Lemma transition_trans s1 s2 s3 : transition s1 s2 → transition s2 s3 → transition s1 s3.
Proof.
  intros [->|[Hopen Habs]] [->|[Hopen' Habs']]; [by left|by right|by right|].
  exfalso. status_solver.
Qed.

(** What a call does to a claim that is stored, in a state that satisfies
    the invariant: the identifier keeps its reference, and the claim object
    changes at most by a decision. *)
Lemma exec_stored call w claim_id claim c :
  invariant w →
  claims (self w) !! claim_id = Some claim →
  objects w !! claim = Some c →
  ∃ c', claims (self (exec call w)) !! claim_id = Some claim ∧
        objects (exec call w) !! claim = Some c' ∧
        same_but_decision c c' ∧
        transition (Claim.status c) (Claim.status c').
Proof.
  intros Hinv Hclaim Hc.
  assert (∃ c', claims (self w) !! claim_id = Some claim ∧ objects w !! claim = Some c' ∧
            same_but_decision c c' ∧ transition (Claim.status c) (Claim.status c'))
    as Hsame.
  { exists c. split; [done|]. split; [done|].
    split; [apply same_but_decision_refl|apply transition_refl]. }
  assert (∀ target now claim0 c0,
            objects w !! claim0 = Some c0 →
            Claim.status c0 ∉ [APPROVED; REJECTED] →
            (claim0 = claim → target ∈ [APPROVED; REJECTED]) →
            ∃ c', objects (set_objects <[claim0 := decided target now c0]> w) !! claim
                    = Some c' ∧
                  same_but_decision c c' ∧
                  transition (Claim.status c) (Claim.status c')) as Hdecide.
  { intros target now claim0 c0 Hc0 Hopen Htarget. cbn.
    destruct (decide (claim0 = claim)) as [->|Hne].
    - rewrite lookup_insert_eq. exists (decided target now c0).
      assert (c0 = c) as -> by congruence.
      split; [done|]. split; [apply same_but_decision_decided|]. right.
      split; [|by apply Htarget].
      pose proof (inv_never_pending _ Hinv _ _ _ Hclaim Hc) as Hpending.
      destruct (Claim.status c); status_solver.
    - rewrite lookup_insert_ne by done. exists c. split; [done|].
      split; [apply same_but_decision_refl|apply transition_refl]. }
  destruct call as [fields now1 now2|p|claim0 now|claim_id0 now|claim_id0 reason now];
    cbn.
  - unfold Claim_new.
    destruct (Claim.__post_init__ now1 now2 fields) as [c0|]; [|done]. cbn.
    exists c. split; [done|]. split.
    + rewrite lookup_insert_ne; [done|]. intros Heq.
      pose proof (is_fresh (dom (objects w))) as Hfresh.
      rewrite Heq in Hfresh. apply Hfresh, elem_of_dom. by eexists.
    + split; [apply same_but_decision_refl|apply transition_refl].
  - rewrite register_patient_eq. by case_bool_decide.
  - rewrite submit_claim_eq.
    destruct (objects w !! claim0) as [c0|] eqn:Hc0; [|done].
    case_bool_decide as Hdup; [done|]. case_bool_decide; [done|].
    destruct (negb _); [done|]. cbn.
    assert (Claim.id c0 ≠ claim_id) as Hid.
    { intros <-. apply Hdup, elem_of_dom. by eexists. }
    rewrite lookup_insert_ne by done.
    assert (claim0 ≠ claim) as Hne.
    { intros ->. destruct (inv_keys _ Hinv _ _ Hclaim) as (c1 & Hc1 & Hid1).
      congruence. }
    rewrite lookup_insert_ne by done. exists c. split; [done|]. split; [done|].
    split; [apply same_but_decision_refl|apply transition_refl].
  - rewrite approve_claim_eq.
    destruct (claims (self w) !! claim_id0) as [claim0|]; [|done].
    destruct (objects w !! claim0) as [c0|] eqn:Hc0; [|done].
    case_bool_decide as Hopen; [done|].
    destruct (Hdecide APPROVED now claim0 c0) as (c' & ? & ? & ?);
      [done|done|intros _; status_solver|]. by exists c'.
  - rewrite reject_claim_eq.
    destruct (claims (self w) !! claim_id0) as [claim0|]; [|done].
    destruct (objects w !! claim0) as [c0|] eqn:Hc0; [|done].
    case_bool_decide as Hopen; [done|].
    destruct (Hdecide REJECTED now claim0 c0) as (c' & ? & ? & ?);
      [done|done|intros _; status_solver|]. by exists c'.
Qed.

Lemma run_stored calls w claim_id claim c :
  invariant w →
  claims (self w) !! claim_id = Some claim →
  objects w !! claim = Some c →
  ∃ c', claims (self (run calls w)) !! claim_id = Some claim ∧
        objects (run calls w) !! claim = Some c' ∧
        same_but_decision c c' ∧
        transition (Claim.status c) (Claim.status c').
Proof.
  revert w c. induction calls as [|call calls IH]; intros w c Hinv Hclaim Hc.
  - exists c. split; [done|]. split; [done|].
    split; [apply same_but_decision_refl|apply transition_refl].
  - rewrite run_cons.
    destruct (exec_stored call w claim_id claim c) as (c1 & Hclaim1 & Hc1 & Hs1 & Ht1);
      [done..|].
    destruct (IH (exec call w) c1) as (c2 & Hclaim2 & Hc2 & Hs2 & Ht2);
      [by apply invariant_exec|done..|].
    exists c2. split; [done|]. split; [done|].
    split; [by eapply same_but_decision_trans|by eapply transition_trans].
Qed.

(** X3. In a reachable state, a claim that [get_claim] returns stays
    stored under its identifier, as the same object, after every further
    run of calls, and the object keeps its identifier, patient, provider,
    amount, description, date of service and creation time. *)
Theorem get_claim_persists calls w claim_id claim c :
  reachable w →
  get_claim claim_id w = (Return (Some claim), w) →
  objects w !! claim = Some c →
  get_claim claim_id (run calls w) = (Return (Some claim), run calls w) ∧
  ∃ c', objects (run calls w) !! claim = Some c' ∧ same_but_decision c c'.
Proof.
  intros Hinv%reachable_invariant. unfold get_claim. unfold_M. intros [= Hclaim] Hc.
  destruct (run_stored calls w claim_id claim c) as (c' & -> & Hc' & Hs & _); [done..|].
  split; [done|]. by exists c'.
Qed.

Lemma get_claim_persists_witness :
  get_claim "C1" (run scenario initial_world)
    = (Return (Some 0%nat), run scenario initial_world).
Proof.
  apply (get_claim_persists (drop 3 scenario) (run (take 3 scenario) initial_world)
           "C1" 0%nat
           (Claim.mk "C1" "P1" "PR1" 75 "Routine checkup" 738000
              APPROVED (Some 1%Z) (Some 2%Z))).
  - by exists (take 3 scenario).
  - by vm_compute.
  - by vm_compute.
Defined.

(** X4. In a reachable state, the status of a stored claim only moves
    forward: after every further run of calls its status is the one it had,
    or it was processing or requires_review and is now approved or
    rejected. So an approved or rejected claim keeps its status under all
    calls, also [submit_claim]. *)
Theorem status_moves_forward calls w claim_id c :
  reachable w →
  stored w claim_id = Some c →
  ∃ c', stored (run calls w) claim_id = Some c' ∧
        transition (Claim.status c) (Claim.status c') ∧
        (Claim.status c ∈ [APPROVED; REJECTED] → Claim.status c' = Claim.status c).
Proof.
  intros Hinv%reachable_invariant (claim & Hclaim & Hc)%stored_Some.
  destruct (run_stored calls w claim_id claim c) as (c' & Hclaim' & Hc' & _ & Ht);
    [done..|].
  exists c'. split; [apply stored_Some; by exists claim|]. split; [done|].
  intros Habs. destruct Ht as [->|[Hopen _]]; [done|]. exfalso. status_solver.
Qed.

Lemma status_moves_forward_witness :
  ∃ c', stored (run scenario initial_world) "C1" = Some c' ∧
        Claim.status c' = APPROVED.
Proof.
  destruct (status_moves_forward (drop 3 scenario)
              (run (take 3 scenario) initial_world) "C1"
              (Claim.mk "C1" "P1" "PR1" 75 "Routine checkup" 738000
                 APPROVED (Some 1%Z) (Some 2%Z)))
    as (c' & Hc' & _ & Habs).
  - by exists (take 3 scenario).
  - by vm_compute.
  - exists c'. split; [done|]. apply Habs. cbn. status_solver.
Defined.

Lemma exec_patients_dom call w patient_id :
  patient_id ∈ dom (patients (self w)) →
  patient_id ∈ dom (patients (self (exec call w))).
Proof.
  intros [p Hp]%elem_of_dom. apply elem_of_dom. exists p. by apply exec_patients.
Qed.

Lemma exec_references_patients call w :
  invariant w → references_patients w → references_patients (exec call w).
Proof.
  intros Hinv Hrefs claim_id c' (claim & Hclaim' & Hc')%stored_Some.
  apply exec_patients_dom.
  assert (∀ c, stored w claim_id = Some c →
            Claim.patient_id c' = Claim.patient_id c →
            Claim.patient_id c' ∈ dom (patients (self w))) as Hold.
  { intros c Hc ->. by eapply Hrefs. }
  assert (∀ target now claim0 c0,
            objects w !! claim0 = Some c0 →
            claims (self w) !! claim_id = Some claim →
            <[claim0 := decided target now c0]> (objects w) !! claim = Some c' →
            Claim.patient_id c' ∈ dom (patients (self w))) as Hdecide.
  { intros target now claim0 c0 Hc0 Hclaim.
    destruct (decide (claim0 = claim)) as [->|Hne].
    - rewrite lookup_insert_eq. intros [= <-].
      apply (Hold c0); [|done]. apply stored_Some. by exists claim.
    - rewrite lookup_insert_ne by done. intros Hc.
      apply (Hold c'); [|done]. apply stored_Some. by exists claim. }
  destruct call as [fields now1 now2|p|claim0 now|claim_id0 now|claim_id0 reason now];
    cbn in Hclaim', Hc'.
  - unfold Claim_new in *.
    destruct (Claim.__post_init__ now1 now2 fields) as [c0|]; cbn in Hclaim', Hc'.
    + destruct (inv_keys _ Hinv _ _ Hclaim') as (c & Hc & _).
      rewrite lookup_insert_ne in Hc'.
      * apply (Hold c'); [|done]. apply stored_Some. by exists claim.
      * intros Heq. pose proof (is_fresh (dom (objects w))) as Hfresh.
        rewrite Heq in Hfresh. apply Hfresh, elem_of_dom. by eexists.
    + apply (Hold c'); [|done]. apply stored_Some. by exists claim.
  - rewrite register_patient_eq in Hclaim', Hc'.
    apply (Hold c'); [|done]. apply stored_Some. exists claim.
    by case_bool_decide.
  - rewrite submit_claim_eq in Hclaim', Hc'.
    destruct (objects w !! claim0) as [c0|] eqn:Hc0;
      [|apply (Hold c'); [|done]; apply stored_Some; by exists claim].
    case_bool_decide as Hdup;
      [apply (Hold c'); [|done]; apply stored_Some; by exists claim|].
    case_bool_decide as Hpatient;
      [apply (Hold c'); [|done]; apply stored_Some; by exists claim|].
    destruct (negb _);
      [apply (Hold c'); [|done]; apply stored_Some; by exists claim|].
    cbn in Hclaim', Hc'.
    destruct (decide (Claim.id c0 = claim_id)) as [<-|Hne].
    + rewrite lookup_insert_eq in Hclaim'. injection Hclaim' as <-.
      rewrite lookup_insert_eq in Hc'. injection Hc' as <-. exact Hpatient.
    + rewrite lookup_insert_ne in Hclaim' by done. by eapply Hdecide.
  - rewrite approve_claim_eq in Hclaim', Hc'.
    destruct (claims (self w) !! claim_id0) as [claim0|];
      [|apply (Hold c'); [|done]; apply stored_Some; by exists claim].
    destruct (objects w !! claim0) as [c0|] eqn:Hc0;
      [|apply (Hold c'); [|done]; apply stored_Some; by exists claim].
    case_bool_decide;
      [apply (Hold c'); [|done]; apply stored_Some; by exists claim|].
    cbn in Hclaim', Hc'. by eapply Hdecide.
  - rewrite reject_claim_eq in Hclaim', Hc'.
    destruct (claims (self w) !! claim_id0) as [claim0|];
      [|apply (Hold c'); [|done]; apply stored_Some; by exists claim].
    destruct (objects w !! claim0) as [c0|] eqn:Hc0;
      [|apply (Hold c'); [|done]; apply stored_Some; by exists claim].
    case_bool_decide;
      [apply (Hold c'); [|done]; apply stored_Some; by exists claim|].
    cbn in Hclaim', Hc'. by eapply Hdecide.
Qed.

Lemma run_references_patients calls w :
  invariant w → references_patients w → references_patients (run calls w).
Proof.
  revert w. induction calls as [|call calls IH]; intros w Hinv Hrefs; [done|].
  rewrite run_cons. apply IH; [by apply invariant_exec|].
  by apply exec_references_patients.
Qed.

(** X5. Referential integrity: in every reachable state the patient of
    every stored claim is registered, so [get_patient] finds it. *)
Theorem stored_claim_has_patient w claim_id c :
  reachable w →
  stored w claim_id = Some c →
  ∃ patient, get_patient (Claim.patient_id c) w = (Return (Some patient), w).
Proof.
  intros [calls ->] Hc.
  assert (references_patients (run calls initial_world)) as Hrefs.
  { apply run_references_patients; [apply invariant_initial|].
    intros claim_id' c' Hc'. by apply stored_Some in Hc' as (? & ? & ?). }
  apply Hrefs, elem_of_dom in Hc as [patient Hp].
  exists patient. unfold get_patient. unfold_M. by rewrite Hp.
Qed.

Lemma stored_claim_has_patient_witness :
  ∃ patient,
    get_patient "P1" (run scenario initial_world)
      = (Return (Some patient), run scenario initial_world).
Proof.
  apply (stored_claim_has_patient (run scenario initial_world) "C3"
           (Claim.mk "C3" "P1" "PR1" 15000 "Routine checkup" 738000
              REJECTED (Some 5%Z) (Some 8%Z))).
  - by exists scenario.
  - by vm_compute.
Defined.

(** ** The listings *)

Lemma values_alive w :
  claims_are_objects w →
  Forall (λ claim, is_Some (objects w !! claim)) (values (claims (self w))).
Proof.
  intros Halive. apply Forall_forall. intros claim Hin. unfold values in Hin.
  apply list_elem_of_fmap in Hin as ([claim_id claim'] & -> & Hin).
  apply elem_of_map_to_list in Hin. by eapply Halive.
Qed.

Lemma elem_of_values (cs : gmap string loc) claim :
  claim ∈ values cs ↔ ∃ claim_id, cs !! claim_id = Some claim.
Proof.
  unfold values. rewrite list_elem_of_fmap. split.
  - intros ([claim_id claim'] & -> & Hin). exists claim_id.
    by apply elem_of_map_to_list.
  - intros [claim_id Hin]. exists (claim_id, claim). split; [done|].
    by apply elem_of_map_to_list.
Qed.

Lemma NoDup_values w : keys_consistent w → NoDup (values (claims (self w))).
Proof.
  intros Hkeys. unfold values. apply NoDup_fmap_2_strong; [|apply NoDup_map_to_list].
  intros [k1 l1] [k2 l2] H1%elem_of_map_to_list H2%elem_of_map_to_list Heq.
  cbn in Heq. subst l2.
  destruct (Hkeys _ _ H1) as (c1 & Hc1 & <-).
  destruct (Hkeys _ _ H2) as (c2 & Hc2 & <-). congruence.
Qed.

Lemma reachable_claims_are_objects w : reachable w → claims_are_objects w.
Proof.
  intros Hkeys%reachable_keys_consistent claim_id claim Hclaim.
  destruct (Hkeys _ _ Hclaim) as (c & Hc & _). by exists c.
Qed.

Lemma select_getattr {A} `{EqDecision A} (attr : Claim.t → A) (x : A) claims w :
  Forall (λ claim, is_Some (objects w !! claim)) claims →
  select (λ claim, v ← getattr claim attr; mret (bool_decide (v = x))) claims w
    = (Return (filter (λ claim, attr <$> objects w !! claim = Some x) claims), w).
Proof.
  unfold mbind, mret. induction 1 as [|claim claims [c Hc] _ IH]; [done|].
  cbn [select]. unfold mbind, mret. unfold M_bind at 1. unfold M_bind at 1.
  unfold getattr at 1. rewrite Hc. unfold M_ret at 1.
  unfold M_bind at 1. rewrite IH. unfold M_ret.
  rewrite filter_cons, Hc. cbn.
  case_bool_decide as Hv; case_decide as Hd; try done.
  - destruct Hd. by rewrite Hv.
  - destruct Hv. by injection Hd.
Qed.

Lemma get_claims_by_patient_eq patient_id w :
  claims_are_objects w →
  get_claims_by_patient patient_id w =
    (Return (filter (λ claim, Claim.patient_id <$> objects w !! claim = Some patient_id)
               (values (claims (self w)))), w).
Proof.
  intros Halive%values_alive. unfold get_claims_by_patient.
  unfold mbind at 1. unfold M_bind at 1, gets, compose.
  by rewrite select_getattr.
Qed.

Lemma get_claims_by_status_eq status w :
  claims_are_objects w →
  get_claims_by_status status w =
    (Return (filter (λ claim, Claim.status <$> objects w !! claim = Some status)
               (values (claims (self w)))), w).
Proof.
  intros Halive%values_alive. unfold get_claims_by_status.
  unfold mbind at 1. unfold M_bind at 1, gets, compose.
  by rewrite select_getattr.
Qed.

(** X6. Where the values of the [claims] dict are claim objects,
    [get_claims_by_patient] returns, raises nothing and changes nothing, and
    a claim object is in the list exactly when it is stored and has this
    patient. Where every key holds the claim of that identifier, no claim
    is listed twice. A patient without claims, registered or not, gets the
    empty list. *)
Theorem get_claims_by_patient_spec patient_id w :
  claims_are_objects w →
  ∃ listed,
    get_claims_by_patient patient_id w = (Return listed, w) ∧
    (∀ claim, claim ∈ listed ↔
       ∃ claim_id c, claims (self w) !! claim_id = Some claim ∧
                     objects w !! claim = Some c ∧
                     Claim.patient_id c = patient_id) ∧
    (keys_consistent w → NoDup listed) ∧
    ((∀ claim_id c, stored w claim_id = Some c → Claim.patient_id c ≠ patient_id) →
       listed = []).
Proof.
  intros Halive. eexists. split; [by apply get_claims_by_patient_eq|].
  assert (∀ claim,
            claim ∈ filter (λ claim, Claim.patient_id <$> objects w !! claim
                                       = Some patient_id)
                      (values (claims (self w))) ↔
            ∃ claim_id c, claims (self w) !! claim_id = Some claim ∧
                          objects w !! claim = Some c ∧
                          Claim.patient_id c = patient_id) as Hmem.
  { intros claim. rewrite list_elem_of_filter, elem_of_values. split.
    - intros [Hp [claim_id Hclaim]].
      destruct (objects w !! claim) as [c|]; [|done].
      exists claim_id, c. by injection Hp.
    - intros (claim_id & c & Hclaim & -> & <-). split; [done|by exists claim_id]. }
  split; [done|]. split.
  - intros Hkeys. by apply NoDup_filter, NoDup_values.
  - intros Hnone. apply elem_of_nil_inv. intros claim Hin.
    apply Hmem in Hin as (claim_id & c & Hclaim & Hc & Hp).
    apply (Hnone claim_id c); [|done]. apply stored_Some. by exists claim.
Qed.

Lemma get_claims_by_patient_spec_witness :
  ∃ listed,
    get_claims_by_patient "P1" (run scenario initial_world)
      = (Return listed, run scenario initial_world) ∧
    (2%nat ∈ listed ∧ NoDup listed).
Proof.
  destruct (get_claims_by_patient_spec "P1" (run scenario initial_world))
    as (listed & Hcall & Hmem & Hnodup & _).
  - apply reachable_claims_are_objects. by exists scenario.
  - exists listed. split; [done|]. split.
    + apply Hmem. exists "C3",
      (Claim.mk "C3" "P1" "PR1" 15000 "Routine checkup" 738000
         REJECTED (Some 5%Z) (Some 8%Z)).
      vm_compute. repeat split; reflexivity.
    + apply Hnodup, reachable_keys_consistent. by exists scenario.
Defined.

(** X7. Where the values of the [claims] dict are claim objects,
    [get_claims_by_status] returns, raises nothing and changes nothing, and
    a claim object is in the list exactly when it is stored and has this
    status now; where every key holds the claim of that identifier, no claim
    is listed twice. *)
Theorem get_claims_by_status_spec status w :
  claims_are_objects w →
  ∃ listed,
    get_claims_by_status status w = (Return listed, w) ∧
    (∀ claim, claim ∈ listed ↔
       ∃ claim_id c, claims (self w) !! claim_id = Some claim ∧
                     objects w !! claim = Some c ∧
                     Claim.status c = status) ∧
    (keys_consistent w → NoDup listed).
Proof.
  intros Halive. eexists. split; [by apply get_claims_by_status_eq|].
  split.
  - intros claim. rewrite list_elem_of_filter, elem_of_values. split.
    + intros [Hp [claim_id Hclaim]].
      destruct (objects w !! claim) as [c|]; [|done].
      exists claim_id, c. by injection Hp.
    + intros (claim_id & c & Hclaim & -> & <-). split; [done|by exists claim_id].
  - intros Hkeys. by apply NoDup_filter, NoDup_values.
Qed.

Lemma get_claims_by_status_spec_witness :
  ∃ listed,
    get_claims_by_status REJECTED (run scenario initial_world)
      = (Return listed, run scenario initial_world) ∧
    2%nat ∈ listed.
Proof.
  destruct (get_claims_by_status_spec REJECTED (run scenario initial_world))
    as (listed & Hcall & Hmem & _).
  - apply reachable_claims_are_objects. by exists scenario.
  - exists listed. split; [done|]. apply Hmem. exists "C3",
      (Claim.mk "C3" "P1" "PR1" 15000 "Routine checkup" 738000
         REJECTED (Some 5%Z) (Some 8%Z)).
      vm_compute. repeat split; reflexivity.
Defined.

(** X8. In every reachable state [get_claims_by_status] of pending is the
    empty list: no stored claim is ever pending. *)
Theorem get_claims_by_status_pending w :
  reachable w → get_claims_by_status PENDING w = (Return [], w).
Proof.
  intros Hw. pose proof (reachable_invariant _ Hw) as Hinv.
  rewrite get_claims_by_status_eq by by apply reachable_claims_are_objects.
  assert (filter (λ claim, Claim.status <$> objects w !! claim = Some PENDING)
            (values (claims (self w))) = []) as ->; [|done].
  apply elem_of_nil_inv. intros claim [Hp [claim_id Hclaim]%elem_of_values]%list_elem_of_filter.
  destruct (objects w !! claim) as [c|] eqn:Hc; [|done]. injection Hp as Hp.
  by apply (inv_never_pending _ Hinv _ _ _ Hclaim Hc).
Qed.

Lemma get_claims_by_status_pending_witness :
  get_claims_by_status PENDING (run scenario initial_world)
    = (Return [], run scenario initial_world).
Proof. apply get_claims_by_status_pending. by exists scenario. Defined.

(** ** Totals *)

Lemma keys_consistent_objects w : keys_consistent w → claims_are_objects w.
Proof.
  intros Hkeys claim_id claim Hclaim.
  destruct (Hkeys _ _ Hclaim) as (c & Hc & _). by exists c.
Qed.

Lemma calculate_total_approved_amount_eq patient_id w :
  claims_are_objects w →
  calculate_total_approved_amount patient_id w =
    (Return (total_of patient_id
               (omap (λ claim, objects w !! claim) (values (claims (self w))))), w).
Proof.
  intros Halive%values_alive. unfold calculate_total_approved_amount. unfold_M.
  by rewrite for_each_getattr.
Qed.




(** What a claim adds to the total of a patient. *)
Lemma sum_amounts_filter_insert patient_id (m : gmap string Claim.t) claim_id c :
  m !! claim_id = None →
  (sum_amounts (filter (λ kc, is_approved_for patient_id kc.2) (<[claim_id := c]> m))
   == (if decide (is_approved_for patient_id c) then Claim.amount c else 0)
      + sum_amounts (filter (λ kc, is_approved_for patient_id kc.2) m))%Q.
Proof.
  intros Hfresh. case_decide as Hp.
  - rewrite map_filter_insert_True by done. apply sum_amounts_insert.
    apply map_lookup_filter_None_2. by left.
  - rewrite map_filter_insert_not' by (done || by rewrite Hfresh).
    by rewrite Qplus_0_l.
Qed.

Lemma sum_amounts_filter_delete patient_id (m : gmap string Claim.t) claim_id c :
  m !! claim_id = Some c →
  (sum_amounts (filter (λ kc, is_approved_for patient_id kc.2) m)
   == (if decide (is_approved_for patient_id c) then Claim.amount c else 0)
      + sum_amounts (filter (λ kc, is_approved_for patient_id kc.2)
                       (delete claim_id m)))%Q.
Proof.
  intros Hc. rewrite <- (insert_delete_id m claim_id c) at 1 by done.
  apply sum_amounts_filter_insert, lookup_delete_eq.
Qed.

Lemma stored_claims_update w claim_id claim c' :
  keys_consistent w →
  claims (self w) !! claim_id = Some claim →
  stored_claims (set_objects <[claim := c']> w) = <[claim_id := c']> (stored_claims w).
Proof.
  intros Hkeys Hclaim. apply map_eq. intros k.
  rewrite stored_lookup. unfold stored. cbn.
  destruct (decide (k = claim_id)) as [->|Hne].
  - rewrite Hclaim, lookup_insert_eq. cbn. by rewrite lookup_insert_eq.
  - rewrite lookup_insert_ne by done. rewrite stored_lookup. unfold stored.
    destruct (claims (self w) !! k) as [l|] eqn:Hl; [|done]. cbn.
    rewrite lookup_insert_ne; [done|]. intros <-.
    destruct (Hkeys _ _ Hclaim) as (c1 & Hc1 & Hid1).
    destruct (Hkeys _ _ Hl) as (c2 & Hc2 & Hid2). congruence.
Qed.

Lemma stored_claims_submit w claim c c' :
  keys_consistent w →
  objects w !! claim = Some c →
  Claim.id c ∉ dom (claims (self w)) →
  stored_claims (set_objects <[claim := c']> (set_claims <[Claim.id c := claim]> w))
    = <[Claim.id c := c']> (stored_claims w).
Proof.
  intros Hkeys Hc Hnew. apply map_eq. intros k.
  rewrite stored_lookup. unfold stored. cbn.
  destruct (decide (k = Claim.id c)) as [->|Hne].
  - rewrite !lookup_insert_eq. cbn. by rewrite lookup_insert_eq.
  - rewrite !lookup_insert_ne by done. rewrite stored_lookup. unfold stored.
    destruct (claims (self w) !! k) as [l|] eqn:Hl; [|done]. cbn.
    rewrite lookup_insert_ne; [done|]. intros <-.
    destruct (Hkeys _ _ Hl) as (c2 & Hc2 & Hid2). congruence.
Qed.

Lemma claims_are_objects_update w claim c' :
  claims_are_objects w → claims_are_objects (set_objects <[claim := c']> w).
Proof.
  intros Halive claim_id l Hl. cbn in *.
  destruct (decide (l = claim)) as [->|Hne].
  - rewrite lookup_insert_eq. by eexists.
  - rewrite lookup_insert_ne by done. by eapply Halive.
Qed.

(** The total that the method returns, as a sum over the stored claims. *)
Lemma calculate_total_sum_amounts patient_id w :
  claims_are_objects w →
  ∃ total, calculate_total_approved_amount patient_id w = (Return total, w) ∧
           (total == sum_amounts (approved_claims_of patient_id w))%Q.
Proof.
  intros Halive. eexists. split; [by apply calculate_total_approved_amount_eq|].
  apply total_of_values.
Qed.

(** The total before and after a manual decision that succeeds. *)
Lemma decision_total target now patient_id w claim_id claim c :
  keys_consistent w →
  claims (self w) !! claim_id = Some claim →
  objects w !! claim = Some c →
  Claim.status c ≠ APPROVED →
  ∃ total total',
    calculate_total_approved_amount patient_id w = (Return total, w) ∧
    calculate_total_approved_amount patient_id
      (set_objects <[claim := decided target now c]> w)
      = (Return total', set_objects <[claim := decided target now c]> w) ∧
    (total' == total +
       (if decide (target = APPROVED ∧ Claim.patient_id c = patient_id) then
          Claim.amount c else 0))%Q.
Proof.
  intros Hkeys Hclaim Hc Hstatus.
  pose proof (keys_consistent_objects _ Hkeys) as Halive.
  destruct (calculate_total_sum_amounts patient_id w Halive) as (total & Hcall & Htotal).
  destruct (calculate_total_sum_amounts patient_id
              (set_objects <[claim := decided target now c]> w))
    as (total' & Hcall' & Htotal'); [by apply claims_are_objects_update|].
  exists total, total'. split; [done|]. split; [done|].
  rewrite Htotal, Htotal'. unfold approved_claims_of.
  rewrite (stored_claims_update _ claim_id) by done.
  assert (stored_claims w !! claim_id = Some c) as Hstored.
  { rewrite stored_lookup. apply stored_Some. by exists claim. }
  rewrite (sum_amounts_filter_delete patient_id (stored_claims w) claim_id c) by done.
  rewrite <- insert_delete_eq.
  rewrite sum_amounts_filter_insert by apply lookup_delete_eq.
  rewrite (decide_False (P := is_approved_for patient_id c))
    by (intros [_ Hs]; by apply Hstatus).
  rewrite Qplus_0_l, Qplus_comm. apply Qplus_inj_l.
  unfold is_approved_for. cbn.
  repeat case_decide; try reflexivity; exfalso; intuition congruence.
Qed.

Lemma calculate_total_approved_claims patient_id w :
  claims_are_objects w →
  calculate_total_approved_amount patient_id w
    = (Return (sum (Claim.amount <$> approved_claims patient_id w)), w).
Proof. apply calculate_total_approved_amount_eq. Qed.

(** Writing to a claim object that is not selected before and not after
    leaves the list of the comprehension as it is. *)
Lemma approved_claims_update_other patient_id w claim c c' :
  objects w !! claim = Some c →
  ¬ is_approved_for patient_id c →
  ¬ is_approved_for patient_id c' →
  approved_claims patient_id (set_objects <[claim := c']> w)
    = approved_claims patient_id w.
Proof.
  intros Hc Hp Hp'. unfold approved_claims. cbn.
  induction (values (claims (self w))) as [|l ls IH]; [done|].
  cbn [omap list_omap]. destruct (decide (l = claim)) as [->|Hne].
  - rewrite lookup_insert_eq, Hc, !filter_cons, !decide_False by done. apply IH.
  - rewrite lookup_insert_ne by done.
    destruct (objects w !! l) as [c0|]; [|apply IH].
    rewrite !filter_cons, IH. done.
Qed.

(** Writing a selected claim over one that was not selected adds it to the
    list of the comprehension. *)
Lemma approved_claims_update_selected patient_id w claim_id claim c c' :
  keys_consistent w →
  claims (self w) !! claim_id = Some claim →
  objects w !! claim = Some c →
  ¬ is_approved_for patient_id c →
  is_approved_for patient_id c' →
  approved_claims patient_id (set_objects <[claim := c']> w)
    ≡ₚ c' :: approved_claims patient_id w.
Proof.
  intros Hkeys Hclaim Hc Hp Hp'. rewrite !approved_claims_Permutation.
  unfold approved_claims_of. rewrite (stored_claims_update _ claim_id) by done.
  rewrite map_filter_insert_True by done.
  rewrite map_to_list_insert; [done|].
  apply map_lookup_filter_None_2. right. intros c0.
  rewrite stored_lookup. intros (l & Hl & Hc0)%stored_Some. cbn. congruence.
Qed.

(** X10. In a state where every key holds the claim of that identifier,
    when [approve_claim] returns true the claim read back is approved, with
    its amount and patient as before, and the list of approved claims whose
    amounts [calculate_total_approved_amount] adds is, for the patient of
    the claim, the old list with this claim added, and for every other
    patient the same list as before, so that the total of every other
    patient is the same value. *)
Theorem approve_claim_total patient_id claim_id now w w' :
  keys_consistent w →
  approve_claim claim_id now w = (Return true, w') →
  ∃ c c',
    stored w claim_id = Some c ∧
    stored w' claim_id = Some c' ∧
    Claim.status c' = APPROVED ∧
    Claim.amount c' = Claim.amount c ∧
    Claim.patient_id c' = Claim.patient_id c ∧
    calculate_total_approved_amount patient_id w
      = (Return (sum (Claim.amount <$> approved_claims patient_id w)), w) ∧
    calculate_total_approved_amount patient_id w'
      = (Return (sum (Claim.amount <$> approved_claims patient_id w')), w') ∧
    (Claim.patient_id c = patient_id →
       approved_claims patient_id w' ≡ₚ c' :: approved_claims patient_id w) ∧
    (Claim.patient_id c ≠ patient_id →
       approved_claims patient_id w' = approved_claims patient_id w ∧
       (calculate_total_approved_amount patient_id w').1
         = (calculate_total_approved_amount patient_id w).1).
Proof.
  intros Hkeys. rewrite approve_claim_eq.
  destruct (claims (self w) !! claim_id) as [claim|] eqn:Hclaim; [|done].
  destruct (objects w !! claim) as [c|] eqn:Hc; [|done].
  case_bool_decide as Hopen; [done|]. intros [= <-].
  pose proof (keys_consistent_objects _ Hkeys) as Halive.
  assert (¬ is_approved_for patient_id c) as Hp.
  { intros [_ Hs]. apply Hopen. rewrite Hs. status_solver. }
  exists c, (decided APPROVED now c).
  rewrite !calculate_total_approved_claims
    by (done || by apply claims_are_objects_update).
  split; [apply stored_Some; by exists claim|].
  split. { apply stored_Some. exists claim. cbn. by rewrite lookup_insert_eq. }
  do 5 (split; [done|]). split.
  - intros Hpatient.
    by apply (approved_claims_update_selected patient_id w claim_id claim c).
  - intros Hpatient.
    rewrite (approved_claims_update_other patient_id w claim c); try done.
    by intros [? _].
Qed.

Lemma approve_claim_total_witness :
  ∃ c',
    stored (run (take 8 scenario) initial_world) "C2" = Some c' ∧
    approved_claims "P1" (run (take 8 scenario) initial_world)
      ≡ₚ c' :: approved_claims "P1" (run (take 7 scenario) initial_world).
Proof.
  destruct (approve_claim_total "P1" "C2" 7 (run (take 7 scenario) initial_world)
              (run (take 8 scenario) initial_world))
    as (c & c' & Hc & Hc' & _ & _ & _ & _ & _ & Hsame & _).
  - apply reachable_keys_consistent. by exists (take 7 scenario).
  - vm_compute. reflexivity.
  - exists c'. split; [assumption|]. apply Hsame.
    vm_compute in Hc. injection Hc as <-. reflexivity.
Defined.

(** X11. In a state where every key holds the claim of that identifier,
    when [reject_claim] returns true the approved total of every patient is
    as before. *)
Theorem reject_claim_total patient_id claim_id reason now w w' :
  keys_consistent w →
  reject_claim claim_id reason now w = (Return true, w') →
  ∃ total total',
    calculate_total_approved_amount patient_id w = (Return total, w) ∧
    calculate_total_approved_amount patient_id w' = (Return total', w') ∧
    (total' == total)%Q.
Proof.
  intros Hkeys. rewrite reject_claim_eq.
  destruct (claims (self w) !! claim_id) as [claim|] eqn:Hclaim; [|done].
  destruct (objects w !! claim) as [c|] eqn:Hc; [|done].
  case_bool_decide as Hopen; [done|]. intros [= <-].
  destruct (decision_total REJECTED now patient_id w claim_id claim c)
    as (total & total' & Hcall & Hcall' & Htotal); [done..| |].
  { intros Hs. apply Hopen. rewrite Hs. status_solver. }
  exists total, total'. split; [done|]. split; [done|].
  rewrite Htotal. rewrite decide_False by (by intros [? _]). apply Qplus_0_r.
Qed.

Lemma reject_claim_total_witness :
  ∃ total total',
    calculate_total_approved_amount "P1" (run (take 8 scenario) initial_world)
      = (Return total, run (take 8 scenario) initial_world) ∧
    calculate_total_approved_amount "P1" (run scenario initial_world)
      = (Return total', run scenario initial_world) ∧
    (total' == total)%Q.
Proof.
  apply (reject_claim_total "P1" "C3" EmptyString 8
           (run (take 8 scenario) initial_world) (run scenario initial_world)).
  - apply reachable_keys_consistent. by exists (take 8 scenario).
  - vm_compute. reflexivity.
Defined.

Lemma auto_decision_approved threshold amount :
  auto_decision threshold amount = APPROVED ↔ Qle_bool amount threshold = true.
Proof.
  unfold auto_decision. destruct (Qle_bool amount threshold); [done|].
  by destruct (negb _).
Qed.

(** X12. In a state where every key holds the claim of that identifier,
    when [submit_claim] returns true the list of approved claims whose
    amounts [calculate_total_approved_amount] adds for a patient is the old
    list with the new claim added, if the claim is of this patient and its
    amount is within the auto-approval threshold, and holds the same claims
    as before otherwise. *)
Theorem submit_claim_total patient_id claim now w w' :
  keys_consistent w →
  submit_claim claim now w = (Return true, w') →
  ∃ c c',
    objects w !! claim = Some c ∧
    stored w' (Claim.id c) = Some c' ∧
    Claim.amount c' = Claim.amount c ∧
    Claim.patient_id c' = Claim.patient_id c ∧
    calculate_total_approved_amount patient_id w
      = (Return (sum (Claim.amount <$> approved_claims patient_id w)), w) ∧
    calculate_total_approved_amount patient_id w'
      = (Return (sum (Claim.amount <$> approved_claims patient_id w')), w') ∧
    (Claim.patient_id c = patient_id →
     (Claim.amount c <= auto_approve_threshold (self w))%Q →
       approved_claims patient_id w' ≡ₚ c' :: approved_claims patient_id w) ∧
    (Claim.patient_id c ≠ patient_id ∨
     ¬ (Claim.amount c <= auto_approve_threshold (self w))%Q →
       approved_claims patient_id w' ≡ₚ approved_claims patient_id w).
Proof.
  intros Hkeys. rewrite submit_claim_eq.
  destruct (objects w !! claim) as [c|] eqn:Hc; [|done].
  case_bool_decide as Hnew; [done|]. case_bool_decide; [done|].
  destruct (negb _); [done|]. intros [= <-].
  set (c' := decided _ now c).
  pose proof (keys_consistent_objects _ Hkeys) as Halive.
  assert (claims_are_objects
            (set_objects <[claim := c']> (set_claims <[Claim.id c := claim]> w)))
    as Halive'.
  { apply claims_are_objects_update. intros claim_id l. cbn.
    destruct (decide (claim_id = Claim.id c)) as [->|Hne].
    - rewrite lookup_insert_eq. intros [= <-]. by eexists.
    - rewrite lookup_insert_ne by done. apply Halive. }
  assert (stored_claims w !! Claim.id c = None) as Hfresh.
  { rewrite stored_lookup. unfold stored.
    apply not_elem_of_dom in Hnew. by rewrite Hnew. }
  assert (is_approved_for patient_id c' ↔
            Claim.patient_id c = patient_id ∧
            (Claim.amount c <= auto_approve_threshold (self w))%Q) as Hsel.
  { unfold is_approved_for. subst c'. cbn.
    by rewrite auto_decision_approved, Qle_bool_iff. }
  exists c, c'. rewrite !calculate_total_approved_claims by done.
  split; [done|].
  split. { apply stored_Some. exists claim. cbn. by rewrite !lookup_insert_eq. }
  do 4 (split; [done|]). split.
  - intros Hpatient Hle. rewrite !approved_claims_Permutation.
    unfold approved_claims_of. rewrite stored_claims_submit by done.
    rewrite map_filter_insert_True by (by apply Hsel).
    rewrite map_to_list_insert; [done|].
    apply map_lookup_filter_None_2. by left.
  - intros Hother. rewrite !approved_claims_Permutation.
    unfold approved_claims_of. rewrite stored_claims_submit by done.
    rewrite map_filter_insert_not'; [done| |by rewrite Hfresh].
    cbn. rewrite Hsel. tauto.
Qed.

Lemma submit_claim_total_witness :
  ∃ c',
    stored (run (take 3 scenario) initial_world) "C1" = Some c' ∧
    approved_claims "P1" (run (take 3 scenario) initial_world)
      ≡ₚ c' :: approved_claims "P1" world_C1_constructed.
Proof.
  destruct (submit_claim_total "P1" 0%nat 2 world_C1_constructed
              (run (take 3 scenario) initial_world))
    as (c & c' & Hc & Hc' & _ & _ & _ & _ & Hadded & _).
  - apply reachable_keys_consistent. by exists (take 2 scenario).
  - vm_compute. reflexivity.
  - vm_compute in Hc. injection Hc as <-.
    exists c'. split; [exact Hc'|]. apply Hadded; [reflexivity|].
    vm_compute. discriminate.
Defined.

(** X13. A claim that [submit_claim] refuses because its patient is not
    registered is not spoiled: once a patient with this identifier is
    registered, submitting the same claim object again stores it, provided
    its identifier is new and its amount within the ceiling. *)
Theorem submit_after_registration claim now now' patient w c :
  objects w !! claim = Some c →
  Claim.id c ∉ dom (claims (self w)) →
  Claim.patient_id c ∉ dom (patients (self w)) →
  Patient.id patient = Claim.patient_id c →
  (Claim.amount c <= max_claim_amount (self w))%Q →
  ∃ w1 w2,
    submit_claim claim now w = (Raise (ValueError Patient_not_found), w) ∧
    register_patient patient w = (Return true, w1) ∧
    submit_claim claim now' w1 = (Return true, w2) ∧
    claims (self w2) !! Claim.id c = Some claim.
Proof.
  intros Hc Hnew Hunknown Hid Hlimit.
  exists (set_patients <[Patient.id patient := patient]> w). eexists.
  split; [|split; [|split]].
  - rewrite submit_claim_eq, Hc. rewrite (bool_decide_eq_false_2 _ Hnew).
    by rewrite (bool_decide_eq_true_2 _ Hunknown).
  - rewrite register_patient_eq, Hid. by rewrite (bool_decide_eq_false_2 _ Hunknown).
  - rewrite submit_claim_eq. cbn. rewrite Hc.
    rewrite (bool_decide_eq_false_2 _ Hnew).
    rewrite bool_decide_eq_false_2.
    2:{ intros Hn. apply Hn. rewrite Hid. set_solver. }
    apply Qle_bool_iff in Hlimit. rewrite Hlimit. cbn. reflexivity.
  - cbn. by rewrite lookup_insert_eq.
Qed.

Lemma submit_after_registration_witness :
  ∃ w1 w2,
    submit_claim 0%nat 2 world_small_unknown
      = (Raise (ValueError Patient_not_found), world_small_unknown) ∧
    register_patient P9 world_small_unknown = (Return true, w1) ∧
    submit_claim 0%nat 3 w1 = (Return true, w2) ∧
    claims (self w2) !! "C8" = Some 0%nat.
Proof.
  apply (submit_after_registration 0%nat 2 3 P9 world_small_unknown
           (Claim.mk "C8" "P9" "PR1" 500 "Small procedure" 738000
              PENDING (Some 1%Z) (Some 1%Z))).
  - vm_compute. reflexivity.
  - apply (bool_decide_unpack _). vm_compute. reflexivity.
  - apply (bool_decide_unpack _). vm_compute. reflexivity.
  - reflexivity.
  - vm_compute. discriminate.
Defined.

(** ** Construction *)

Lemma lstrip_blank s : blank s → lstrip s = EmptyString.
Proof. induction s as [|a s IH]; [done|]. intros [Ha Hs]. cbn. rewrite Ha. auto. Qed.

Lemma rstrip_length s : (String.length (rstrip s) <= String.length s)%nat.
Proof.
  induction s as [|a s IH]; [done|]. cbn.
  destruct (rstrip s) as [|b t]; [destruct (isspace a)|]; cbn in *; lia.
Qed.

Lemma lstrip_length s : (String.length (lstrip s) <= String.length s)%nat.
Proof.
  induction s as [|a s IH]; [done|]. cbn. destruct (isspace a); cbn; lia.
Qed.

Lemma strip_length s : (String.length (strip s) <= String.length s)%nat.
Proof.
  unfold strip. etransitivity; [apply rstrip_length|apply lstrip_length].
Qed.

(** X14. The constructor of [Claim] raises the amount error for every
    amount <= 0, whatever the description; for an amount > 0 it raises the
    description error when the description without its leading and trailing
    white space has fewer than 5 characters, so for every description
    shorter than 5 and for every description of white space only; in both
    cases no object is created and the state is as before. For an amount
    > 0 and a longer description it returns a reference that was not in use,
    and the object read back there has the fields given, [created_at] and
    [updated_at] being the given times or, where none is given, the current
    time; every other object and the engine are as before. *)
Theorem Claim_new_spec fields now1 now2 w :
  ((Claim.amount fields <= 0)%Q →
     Claim_new fields now1 now2 w
       = (Raise (ValueError Claim_amount_must_be_positive), w)) ∧
  ((0 < Claim.amount fields)%Q →
   (String.length (strip (Claim.description fields)) < 5)%nat →
     Claim_new fields now1 now2 w
       = (Raise (ValueError Claim_description_must_be_at_least_5_characters), w)) ∧
  ((String.length (Claim.description fields) < 5)%nat ∨ blank (Claim.description fields) →
     (String.length (strip (Claim.description fields)) < 5)%nat) ∧
  ((0 < Claim.amount fields)%Q →
   (5 <= String.length (strip (Claim.description fields)))%nat →
     ∃ claim c w',
       Claim_new fields now1 now2 w = (Return claim, w') ∧
       objects w !! claim = None ∧
       objects w' !! claim = Some c ∧
       Claim.id c = Claim.id fields ∧
       Claim.patient_id c = Claim.patient_id fields ∧
       Claim.provider_id c = Claim.provider_id fields ∧
       Claim.amount c = Claim.amount fields ∧
       Claim.description c = Claim.description fields ∧
       Claim.date_of_service c = Claim.date_of_service fields ∧
       Claim.status c = Claim.status fields ∧
       Claim.created_at c = Some (default now1 (Claim.created_at fields)) ∧
       Claim.updated_at c = Some (default now2 (Claim.updated_at fields)) ∧
       self w' = self w ∧
       ∀ other, other ≠ claim → objects w' !! other = objects w !! other).
Proof.
  unfold Claim_new, Claim.__post_init__.
  set (c1 := if Claim.created_at fields is None then _ else _).
  set (c2 := if Claim.updated_at c1 is None then _ else _).
  assert (c2 = Claim.set_updated_at (Some (default now2 (Claim.updated_at fields)))
                 (Claim.set_created_at
                    (Some (default now1 (Claim.created_at fields))) fields)) as Hc2.
  { subst c1 c2. destruct fields as [? ? ? ? ? ? ? [?|] [?|]]; reflexivity. }
  assert (Claim.amount c2 = Claim.amount fields) as -> by by rewrite Hc2.
  assert (Claim.description c2 = Claim.description fields) as -> by by rewrite Hc2.
  split; [|split; [|split]].
  - intros Hamount%Qle_bool_iff. by rewrite Hamount.
  - intros Hamount%Qlt_not_le Hshort. rewrite <- Qle_bool_iff in Hamount.
    destruct (Qle_bool (Claim.amount fields) 0); [done|].
    apply Nat.ltb_lt in Hshort. rewrite Hshort. by rewrite orb_true_r.
  - intros [Hshort|Hblank].
    + pose proof (strip_length (Claim.description fields)). lia.
    + unfold strip. rewrite lstrip_blank by done. cbn. lia.
  - intros Hamount%Qlt_not_le Hlong. rewrite <- Qle_bool_iff in Hamount.
    destruct (Qle_bool (Claim.amount fields) 0); [done|].
    rewrite bool_decide_eq_false_2.
    2:{ intros Hempty. rewrite Hempty in Hlong. cbn in Hlong. lia. }
    apply Nat.ltb_ge in Hlong. rewrite Hlong. cbn [orb].
    eexists _, c2, _. split; [reflexivity|].
    split; [apply not_elem_of_dom, is_fresh|]. cbn.
    rewrite lookup_insert_eq. split; [done|]. rewrite Hc2.
    do 10 (split; [done|]).
    intros other Hother. by rewrite lookup_insert_ne.
Qed.

Lemma Claim_new_spec_witness :
  ∃ claim c w',
    Claim_new (claim_fields "C9" 20) 1 2 initial_world = (Return claim, w') ∧
    objects w' !! claim = Some c ∧
    Claim.created_at c = Some 1%Z ∧ Claim.updated_at c = Some 2%Z.
Proof.
  destruct (Claim_new_spec (claim_fields "C9" 20) 1 2 initial_world)
    as (_ & _ & _ & Hnew).
  destruct Hnew
    as (claim & c & w' & Hcall & _ & Hc & _ & _ & _ & _ & _ & _ & _
        & Hcreated & Hupdated & _).
  - vm_compute. reflexivity.
  - vm_compute. lia.
  - exists claim, c, w'. repeat split; assumption.
Defined.

(** X15. The constructor of [Patient] returns the patient exactly when the
    email has the shape [local@domain.tld] and the insurance identifier is
    not empty; a malformed email is reported first, then the missing
    insurance identifier. *)
Theorem Patient_post_init_spec patient :
  (¬ email_shape (Patient.email patient) →
     Patient.__post_init__ patient = Raise (ValueError Invalid_email_format)) ∧
  (email_shape (Patient.email patient) →
   Patient.insurance_id patient = EmptyString →
     Patient.__post_init__ patient = Raise (ValueError Insurance_ID_is_required)) ∧
  (email_shape (Patient.email patient) →
   Patient.insurance_id patient ≠ EmptyString →
     Patient.__post_init__ patient = Return patient).
Proof.
  unfold Patient.__post_init__.
  pose proof (invalid_email_shape (Patient.email patient)) as Hshape.
  destruct (invalid_email (Patient.email patient)).
  - split; [done|]. split; intros Hemail; apply Hshape in Hemail; done.
  - split; [intros Hemail; by destruct Hemail; apply Hshape|].
    split; intros _ Hins.
    + by rewrite bool_decide_eq_true_2.
    + by rewrite bool_decide_eq_false_2.
Qed.

Lemma Patient_post_init_spec_witness : Patient.__post_init__ P1 = Return P1.
Proof.
  apply (Patient_post_init_spec P1).
  - apply invalid_email_shape. vm_compute. reflexivity.
  - discriminate.
Defined.

(** ** Users and authentication *)

Lemma auth_run_cons call calls a :
  auth_run (call :: calls) a = auth_run calls (auth_exec call a).
Proof. reflexivity. Qed.

Lemma auth_exec_users call a user_id u :
  users a !! user_id = Some u → users (auth_exec call a) !! user_id = Some u.
Proof.
  intros Hu. destruct call as [user_id' email password user_type now|?|token]; cbn.
  - rewrite register_user_eq. case_bool_decide as Hin; [done|].
    destruct (invalid_email email); [done|]. destruct (_ <? _)%nat; [done|]. cbn.
    rewrite lookup_insert_ne; [done|]. intros <-. apply Hin, elem_of_dom. by eexists.
  - done.
  - rewrite logout_eq. by case_bool_decide.
Qed.

Lemma auth_exec_users_valid call a : users_valid a → users_valid (auth_exec call a).
Proof.
  intros Hvalid. destruct call as [user_id' email password user_type now|?|token]; cbn.
  - rewrite register_user_eq. case_bool_decide as Hin; [done|].
    destruct (invalid_email email) eqn:Hemail; [done|].
    destruct (Nat.ltb_spec (String.length password) 8) as [|Hlong]; [done|].
    intros user_id u. cbn. destruct (decide (user_id = user_id')) as [->|Hne].
    + rewrite lookup_insert_eq. intros [= <-]. cbn.
      split; [done|]. split; [by apply invalid_email_shape|done].
    + rewrite lookup_insert_ne by done. apply Hvalid.
  - done.
  - rewrite logout_eq. by case_bool_decide.
Qed.

(** X16. In every state that the service reaches from a new one, every
    stored user is active, has an email of the shape [local@domain.tld] and
    a password of at least 8 characters. *)
Theorem registered_users_valid calls :
  users_valid (auth_run calls AuthenticationService_init).
Proof.
  assert (∀ a, users_valid a → users_valid (auth_run calls a)) as Hrun.
  { induction calls as [|call calls IH]; intros a Ha; [done|].
    rewrite auth_run_cons. by apply IH, auth_exec_users_valid. }
  apply Hrun. intros user_id u Hu. cbn in Hu. by rewrite lookup_empty in Hu.
Qed.

Lemma authenticate_loop_Some items email password view :
  authenticate_loop items email password = Some view →
  UserView.email view = email ∧
  ∃ u, (UserView.user_id view, u) ∈ items ∧ has_credentials email password u ∧
       UserView.user_type view = User.user_type u.
Proof.
  induction items as [|[user_id u] items IH]; [done|]. cbn.
  destruct (bool_decide (User.email u = email)
            && bool_decide (User.password u = password)) eqn:Hmatch.
  - destruct (User.is_active u) eqn:Hactive.
    + intros [= <-]. cbn. split; [done|]. exists u.
      apply andb_true_iff in Hmatch as [He%bool_decide_eq_true Hp%bool_decide_eq_true].
      split; [by left|done].
    + intros (? & u' & ? & ?)%IH. split; [done|]. exists u'. split; [by right|done].
  - intros (? & u' & ? & ?)%IH. split; [done|]. exists u'. split; [by right|done].
Qed.

Lemma authenticate_loop_None items email password :
  authenticate_loop items email password = None ↔
  ∀ user_id u, (user_id, u) ∈ items → ¬ has_credentials email password u.
Proof.
  induction items as [|[user_id u] items IH]; cbn.
  - split; [|done]. intros _ ? ? Hin. by apply elem_of_nil in Hin.
  - destruct (bool_decide (User.email u = email)
              && bool_decide (User.password u = password)) eqn:Hmatch;
      [destruct (User.is_active u) eqn:Hactive|].
    + apply andb_true_iff in Hmatch as [He%bool_decide_eq_true Hp%bool_decide_eq_true].
      split; [done|]. intros Hnone. destruct (Hnone user_id u); [by left|done].
    + rewrite IH. split.
      * intros Hnone user_id' u' [[= -> ->]|Hin]%elem_of_cons; [|by eapply Hnone].
        intros (_ & _ & Ha). congruence.
      * intros Hnone user_id' u' Hin. apply (Hnone user_id' u'). by right.
    + rewrite IH. split.
      * intros Hnone user_id' u' [[= -> ->]|Hin]%elem_of_cons; [|by eapply Hnone].
        intros (He & Hp & _). apply andb_false_iff in Hmatch as [Hm|Hm];
          apply bool_decide_eq_false in Hm; done.
      * intros Hnone user_id' u' Hin. apply (Hnone user_id' u'). by right.
Qed.

Lemma elem_of_items (items : list (string * User.t)) a user_id u :
  items ≡ₚ map_to_list (users a) →
  (user_id, u) ∈ items ↔ users a !! user_id = Some u.
Proof. intros ->. apply elem_of_map_to_list. Qed.

Lemma authenticate_eq email password a :
  authenticate email password a
    = (Return (authenticate_loop (map_to_list (users a)) email password), a).
Proof. reflexivity. Qed.

(** X17. [authenticate] returns and changes nothing. When it returns a
    view, the view has the email asked for, and its user is stored, is
    active, has this email and this password and the type of the view; it
    returns none exactly when no stored user is active with this email and
    this password. The same holds of the loop in whatever order it goes
    through the users. *)
Theorem authenticate_spec email password a :
  ∃ result,
    authenticate email password a = (Return result, a) ∧
    (∀ view, result = Some view →
       UserView.email view = email ∧
       ∃ u, users a !! UserView.user_id view = Some u ∧
            has_credentials email password u ∧
            UserView.user_type view = User.user_type u) ∧
    (result = None ↔
       ∀ user_id u, users a !! user_id = Some u → ¬ has_credentials email password u) ∧
    (∀ items, items ≡ₚ map_to_list (users a) →
       (authenticate_loop items email password = None ↔ result = None)).
Proof.
  exists (authenticate_loop (map_to_list (users a)) email password).
  split; [apply authenticate_eq|].
  assert (∀ items, items ≡ₚ map_to_list (users a) →
            (authenticate_loop items email password = None ↔
               ∀ user_id u, users a !! user_id = Some u →
                            ¬ has_credentials email password u)) as Hnone.
  { intros items Hitems. rewrite authenticate_loop_None. split.
    - intros Hnone user_id u Hu. apply (Hnone user_id).
      by apply (elem_of_items items a).
    - intros Hnone user_id u Hin. apply (Hnone user_id).
      by apply (elem_of_items items). }
  split; [|split].
  - intros view (Hemail & u & Hin & Hcred & Htype)%authenticate_loop_Some.
    split; [done|]. exists u. split; [|done]. by apply elem_of_map_to_list.
  - by apply Hnone.
  - intros items Hitems. rewrite (Hnone items Hitems). symmetry. by apply Hnone.
Qed.

Lemma authenticate_spec_witness :
  authenticate "user@example.com" "wrong-password" service_U001
    = (Return None, service_U001).
Proof.
  destruct (authenticate_spec "user@example.com" "wrong-password" service_U001)
    as (result & Hcall & _ & Hnone & _).
  rewrite Hcall. f_equal. f_equal. apply Hnone.
  intros user_id u Hu (_ & Hp & _).
  assert ((user_id, u) ∈ map_to_list (users service_U001)) as Hin
    by by apply elem_of_map_to_list.
  vm_compute in Hin. apply elem_of_cons in Hin as [Hin|Hin].
  - injection Hin as -> ->. discriminate Hp.
  - by apply elem_of_nil in Hin.
Defined.

(** X18. Round trip: after [register_user] has returned true,
    [authenticate] with the same email and password returns a view with
    this email; when no user stored before is active with this email and
    this password, the view is the one of the new user. *)
Theorem register_then_authenticate user_id email password user_type now a a' :
  register_user user_id email password user_type now a = (Return true, a') →
  ∃ view,
    authenticate email password a' = (Return (Some view), a') ∧
    UserView.email view = email ∧
    ((∀ user_id' u, users a !! user_id' = Some u → ¬ has_credentials email password u) →
       view = UserView.mk user_id email user_type).
Proof.
  rewrite register_user_eq. case_bool_decide as Hnew; [done|].
  destruct (invalid_email email); [done|]. destruct (_ <? _)%nat; [done|].
  intros [= <-]. rewrite authenticate_eq.
  set (a' := set_users _ a).
  destruct (authenticate_loop (map_to_list (users a')) email password)
    as [view|] eqn:Hloop.
  - exists view. split; [done|].
    apply authenticate_loop_Some in Hloop as (Hemail & u & Hin & Hcred & Htype).
    split; [done|]. intros Hnone.
    apply elem_of_map_to_list in Hin. subst a'. cbn in Hin.
    destruct (decide (UserView.user_id view = user_id)) as [Hid|Hne].
    + rewrite Hid, lookup_insert_eq in Hin. injection Hin as <-. cbn in Htype.
      destruct view; cbn in *. congruence.
    + rewrite lookup_insert_ne in Hin by done. by destruct (Hnone _ _ Hin).
  - exfalso. rewrite authenticate_loop_None in Hloop.
    apply (Hloop user_id (User.mk email password user_type now true)); [|done].
    apply elem_of_map_to_list. subst a'. cbn. by rewrite lookup_insert_eq.
Qed.

Lemma register_then_authenticate_witness :
  ∃ view,
    authenticate "user@example.com" "password123" service_U001
      = (Return (Some view), service_U001) ∧
    view = UserView.mk "U001" "user@example.com" PATIENT.
Proof.
  destruct (register_then_authenticate "U001" "user@example.com" "password123" PATIENT 1
              AuthenticationService_init service_U001)
    as (view & Hview & _ & Hnew).
  - vm_compute. reflexivity.
  - exists view. split; [assumption|]. apply Hnew.
    intros user_id' u Hu. cbn in Hu. by rewrite lookup_empty in Hu.
Defined.

(** X19. Users are never removed or changed, whatever calls follow, and
    authentication is never lost: when the loop finds a user for an email
    and a password, it finds one after every further run of calls, in
    whatever order it goes through the users. *)
Theorem users_persist calls a :
  (∀ user_id u, users a !! user_id = Some u →
     users (auth_run calls a) !! user_id = Some u) ∧
  (∀ items items' email password view,
     items ≡ₚ map_to_list (users a) →
     items' ≡ₚ map_to_list (users (auth_run calls a)) →
     authenticate_loop items email password = Some view →
     ∃ view', authenticate_loop items' email password = Some view').
Proof.
  assert (∀ user_id u, users a !! user_id = Some u →
            users (auth_run calls a) !! user_id = Some u) as Hpersist.
  { revert a. induction calls as [|call calls IH]; intros a user_id u Hu; [done|].
    rewrite auth_run_cons. by apply IH, auth_exec_users. }
  split; [done|].
  intros items items' email password view Hitems Hitems' Hview.
  apply authenticate_loop_Some in Hview as (_ & u & Hin & Hcred & _).
  apply (elem_of_items items _ _ _ Hitems) in Hin. apply Hpersist in Hin.
  destruct (authenticate_loop items' email password) as [view'|] eqn:Hloop;
    [by exists view'|].
  exfalso. rewrite authenticate_loop_None in Hloop.
  apply (Hloop (UserView.user_id view) u); [|done].
  by apply (elem_of_items items' (auth_run calls a)).
Qed.

Lemma users_persist_witness :
  users (auth_run [Call_register_user "U001" "other@example.com" "password456" PROVIDER 2;
                   Call_logout "tok-1"] service_U001) !! "U001"
  = Some (User.mk "user@example.com" "password123" PATIENT 1 true).
Proof.
  apply (users_persist
           [Call_register_user "U001" "other@example.com" "password456" PROVIDER 2;
            Call_logout "tok-1"] service_U001).
  vm_compute. reflexivity.
Defined.

(** ** The processing fee *)

(** X20. The processing fee is 25, 50 or 100 and never falls when the
    amount grows. *)
Theorem processing_fee_monotone amount amount' :
  (amount <= amount')%Q →
  (calculate_claim_processing_fee amount
     <= calculate_claim_processing_fee amount')%Q ∧
  (calculate_claim_processing_fee amount = 25%Q ∨
   calculate_claim_processing_fee amount = 50%Q ∨
   calculate_claim_processing_fee amount = 100%Q).
Proof.
  intros Hle. unfold calculate_claim_processing_fee.
  destruct (Qle_bool amount 1000) eqn:H1; destruct (Qle_bool amount' 1000) eqn:H1';
    destruct (Qle_bool amount 5000) eqn:H5; destruct (Qle_bool amount' 5000) eqn:H5';
    (split; [|by auto]); try done;
    exfalso;
    repeat match goal with
    | H : Qle_bool _ _ = true |- _ => apply Qle_bool_iff in H
    | H : Qle_bool _ _ = false |- _ =>
        apply not_true_iff_false in H; rewrite Qle_bool_iff in H;
        apply Qnot_le_lt in H
    end.
  all: try (apply (Qlt_irrefl amount);
            eapply Qle_lt_trans; [apply Hle|];
            eapply Qle_lt_trans; [eassumption|]; eassumption).
  all: try (apply (Qlt_irrefl 1000); eapply Qlt_le_trans; [eassumption|];
            eapply Qle_trans; [apply Hle|]; eassumption).
  all: try (apply (Qlt_irrefl 5000); eapply Qlt_le_trans; [eassumption|];
            eapply Qle_trans; [apply Hle|]; eassumption).
Qed.

Lemma processing_fee_monotone_witness :
  (calculate_claim_processing_fee 1000 <= calculate_claim_processing_fee 1001)%Q.
Proof. apply (processing_fee_monotone 1000 1001). vm_compute. discriminate. Defined.

(** ** Insurance identifiers *)

Lemma string_app_nil_l (s : string) : EmptyString ++ s = s.
Proof. reflexivity. Qed.

Lemma string_length_app (s1 s2 : string) :
  String.length (s1 ++ s2) = (String.length s1 + String.length s2)%nat.
Proof.
  induction s1 as [|a s1 IH]; [done|]. rewrite string_app_cons. cbn. by rewrite IH.
Qed.

Lemma all_in_app cs (s1 s2 : string) :
  all_in cs (s1 ++ s2) ↔ all_in cs s1 ∧ all_in cs s2.
Proof.
  induction s1 as [|a s1 IH]; [cbn; tauto|].
  rewrite string_app_cons. cbn. rewrite IH. tauto.
Qed.

Lemma string_split (s : string) m :
  (m <= String.length s)%nat →
  ∃ s1 s2, s = s1 ++ s2 ∧ String.length s1 = m.
Proof.
  revert s. induction m as [|m IH]; intros s Hm.
  - by exists EmptyString, s.
  - destruct s as [|a s]; cbn in Hm; [lia|].
    destruct (IH s) as (s1 & s2 & -> & Hlen); [lia|].
    exists (String a s1), s2. split; [done|]. cbn. by rewrite Hlen.
Qed.

Lemma matches_one_of cs s :
  matches (one_of cs) s ↔ ∃ c, c ∈ cs ∧ s = String c EmptyString.
Proof.
  induction cs as [|c cs IH]; cbn.
  - split; [inversion 1|]. intros (c & Hc & _). by apply elem_of_nil in Hc.
  - split.
    + intros [Hm|Hm]%matches_Alt_inv.
      * inversion Hm; subst. exists c. split; [by left|done].
      * apply IH in Hm as (c' & Hc' & ->). exists c'. split; [by right|done].
    + intros (c' & [->|Hc']%elem_of_cons & ->).
      * apply matches_Alt_l. constructor.
      * apply matches_Alt_r, IH. by exists c'.
Qed.

Lemma matches_times cs n s :
  matches (times n (one_of cs)) s ↔ String.length s = n ∧ all_in cs s.
Proof.
  revert s. induction n as [|n IH]; intros s; cbn.
  - split.
    + by inversion 1.
    + intros [Hlen _]. destruct s; [constructor|done].
  - split.
    + intros (s1 & s2 & -> & (c & Hc & ->)%matches_one_of & [Hlen Hall]%IH)%matches_Seq_inv.
      rewrite string_app_cons, string_app_nil_l. cbn. by rewrite Hlen.
    + destruct s as [|a s]; [by intros [? _]|]. intros [[= Hlen] [Ha Hall]].
      apply (matches_Seq _ _ (String a EmptyString) s).
      * apply matches_one_of. by exists a.
      * by apply IH.
Qed.

Lemma matches_upto cs n s :
  matches (upto n (one_of cs)) s ↔ (String.length s <= n)%nat ∧ all_in cs s.
Proof.
  revert s. induction n as [|n IH]; intros s; cbn.
  - split.
    + by inversion 1.
    + intros [Hlen _]. destruct s; [constructor|cbn in Hlen; lia].
  - split.
    + intros [Hm|Hm]%matches_Alt_inv.
      * inversion Hm. cbn. split; [lia|done].
      * apply matches_Seq_inv in Hm
          as (s1 & s2 & -> & (c & Hc & ->)%matches_one_of & [Hlen Hall]%IH).
        rewrite string_app_cons, string_app_nil_l. cbn. split; [lia|done].
    + destruct s as [|a s]; [intros _; apply matches_Alt_l; constructor|].
      cbn. intros [Hlen [Ha Hall]]. apply matches_Alt_r.
      apply (matches_Seq _ _ (String a EmptyString) s).
      * apply matches_one_of. by exists a.
      * apply IH. split; [lia|done].
Qed.

Lemma matches_between cs m n s :
  (m <= n)%nat →
  matches (between m n (one_of cs)) s ↔
  (m <= String.length s)%nat ∧ (String.length s <= n)%nat ∧ all_in cs s.
Proof.
  intros Hmn. unfold between. split.
  - intros (s1 & s2 & -> & [Hlen1 Hall1]%matches_times & [Hlen2 Hall2]%matches_upto)
      %matches_Seq_inv.
    rewrite string_length_app, all_in_app. repeat split; (lia || done).
  - intros (Hmin & Hmax & Hall).
    destruct (string_split s m Hmin) as (s1 & s2 & -> & Hlen).
    rewrite string_length_app in Hmax. apply all_in_app in Hall as [Hall1 Hall2].
    constructor; [by apply matches_times|]. apply matches_upto. split; [lia|done].
Qed.

Lemma chomp_app_newline s : chomp (s ++ newline) = Some s.
Proof.
  induction s as [|a s IH]; [done|].
  rewrite string_app_cons.
  destruct (s ++ newline) as [|b t] eqn:Ht.
  - by destruct s.
  - change (chomp (String a (String b t))) with (String a <$> chomp (String b t)).
    by rewrite IH.
Qed.

(** A match of the anchored pattern is a match of the whole string, or of
    the string without the newline that ends it. *)
Lemma re_match_anchored_spec r s :
  re_match_anchored r s = true ↔
  matches r s ∨ ∃ s', s = s' ++ newline ∧ matches r s'.
Proof.
  unfold re_match_anchored. rewrite orb_true_iff, fullmatch_matches. split.
  - intros [Hm|Hm]; [by left|]. right.
    destruct (chomp s) as [s'|] eqn:Hs; [|done]. cbn in Hm.
    apply chomp_Some in Hs. exists s'. split; [done|]. by apply fullmatch_matches.
  - intros [Hm|(s' & -> & Hm)]; [by left|]. right.
    rewrite chomp_app_newline. cbn. by apply fullmatch_matches.
Qed.

(** The identifiers that [validate_insurance_id] accepts. *)
Lemma validate_insurance_id_body insurance_id :
  validate_insurance_id insurance_id = true ↔
  ∃ body,
    (upper insurance_id = body ∨ upper insurance_id = body ++ newline) ∧
    (8 <= String.length body)%nat ∧ (String.length body <= 12)%nat ∧
    all_in A_Z0_9 body.
Proof.
  unfold validate_insurance_id. case_bool_decide as Hempty.
  - subst insurance_id. split; [done|].
    intros (body & [Hbody|Hbody] & Hmin & _).
    + cbn in Hbody. subst body. cbn in Hmin. lia.
    + destruct body; [cbn in Hmin; lia|done].
  - rewrite re_match_anchored_spec. unfold insurance_id_pattern.
    split.
    + intros [Hm|(body & Hbody & Hm)]; apply matches_between in Hm; try lia.
      * exists (upper insurance_id). split; [by left|done].
      * exists body. split; [by right|done].
    + intros (body & [Hbody|Hbody] & Hmin & Hmax & Hall).
      * left. rewrite Hbody. apply matches_between; [lia|done].
      * right. exists body. split; [done|]. apply matches_between; [lia|done].
Qed.

Lemma upper_app (s1 s2 : string) : upper (s1 ++ s2) = upper s1 ++ upper s2.
Proof.
  induction s1 as [|a s1 IH]; [done|].
  rewrite string_app_cons. cbn. by rewrite IH, string_app_assoc.
Qed.

Lemma upper_char_alphanumeric a :
  a ∈ alphanumeric → ∃ c, upper_char a = String c EmptyString ∧ c ∈ A_Z0_9.
Proof.
  intros Ha. unfold alphanumeric in Ha. cbn in Ha.
  decompose_list_elem_of; subst; eexists; (split; [vm_compute; reflexivity|]);
    apply (bool_decide_unpack _); vm_compute; reflexivity.
Qed.

Lemma upper_alphanumeric s :
  all_in alphanumeric s →
  String.length (upper s) = String.length s ∧ all_in A_Z0_9 (upper s).
Proof.
  induction s as [|a s IH]; [done|]. intros [Ha Hs].
  destruct (upper_char_alphanumeric a Ha) as (c & Hc & Hin).
  destruct (IH Hs) as [Hlen Hall]. cbn [upper].
  rewrite Hc, string_app_cons, string_app_nil_l. cbn [String.length all_in].
  by rewrite Hlen.
Qed.

(** X21. [validate_insurance_id] accepts a string exactly when its
    upper-case form is 8 to 12 characters, each a letter A-Z or a digit,
    possibly followed by one newline. So for an identifier of ASCII letters
    and digits, in either case, it is true exactly when the length is 8 to
    12, and such a valid identifier followed by a newline is accepted as
    well. *)
Theorem validate_insurance_id_spec insurance_id :
  (validate_insurance_id insurance_id = true ↔
     ∃ body,
       (upper insurance_id = body ∨ upper insurance_id = body ++ newline) ∧
       (8 <= String.length body)%nat ∧ (String.length body <= 12)%nat ∧
       all_in A_Z0_9 body) ∧
  (all_in alphanumeric insurance_id →
     (validate_insurance_id insurance_id = true ↔
        (8 <= String.length insurance_id)%nat ∧
        (String.length insurance_id <= 12)%nat) ∧
     (validate_insurance_id insurance_id = true →
        validate_insurance_id (insurance_id ++ newline) = true)).
Proof.
  split; [apply validate_insurance_id_body|].
  intros [Hlen Hall]%upper_alphanumeric.
  assert (validate_insurance_id insurance_id = true ↔
            (8 <= String.length insurance_id)%nat ∧
            (String.length insurance_id <= 12)%nat) as Hiff.
  { rewrite validate_insurance_id_body. split.
    - intros (body & [Hbody|Hbody] & Hmin & Hmax & _).
      + rewrite <- Hlen, Hbody. done.
      + exfalso. rewrite Hbody in Hall. apply all_in_app in Hall as [_ [Hnl _]].
        revert Hnl. apply (bool_decide_eq_false_1 _). vm_compute. reflexivity.
    - intros [Hmin Hmax]. exists (upper insurance_id).
      rewrite Hlen. split; [by left|done]. }
  split; [done|]. rewrite Hiff. intros [Hmin Hmax].
  apply validate_insurance_id_body. exists (upper insurance_id).
  rewrite upper_app, Hlen. split; [by right|done].
Qed.

Lemma validate_insurance_id_spec_witness :
  validate_insurance_id ("ins12345" ++ newline) = true.
Proof.
  apply (validate_insurance_id_spec "ins12345").
  - cbn. repeat split; apply (bool_decide_unpack _); vm_compute; reflexivity.
  - vm_compute. reflexivity.
Defined.

(** ** Double submission *)

(** X22. A claim object that [submit_claim] has stored is never accepted
    again: from a reachable state, after the call that returned true and
    any further run of calls, [submit_claim] of the same object returns
    false and changes nothing, so the claim is not processed a second
    time. *)
Theorem submit_claim_once claim now now' calls w w' :
  reachable w →
  submit_claim claim now w = (Return true, w') →
  submit_claim claim now' (run calls w') = (Return false, run calls w').
Proof.
  intros Hinv%reachable_invariant Hsub.
  assert (invariant w') as Hinv'.
  { change w' with (Return true, w').2. rewrite <- Hsub.
    apply (invariant_exec (Call_submit_claim claim now) w Hinv). }
  rewrite submit_claim_eq in Hsub.
  destruct (objects w !! claim) as [c|] eqn:Hc; [|done].
  case_bool_decide; [done|]. case_bool_decide; [done|].
  destruct (negb _); [done|]. injection Hsub as <-.
  destruct (run_stored calls
              (set_objects
                 <[claim := decided (auto_decision (auto_approve_threshold (self w))
                                       (Claim.amount c)) now c]>
                 (set_claims <[Claim.id c := claim]> w))
              (Claim.id c) claim
              (decided (auto_decision (auto_approve_threshold (self w))
                          (Claim.amount c)) now c))
    as (c' & Hclaim' & Hc' & (Hid & _) & _).
  - done.
  - cbn. by rewrite lookup_insert_eq.
  - cbn. by rewrite lookup_insert_eq.
  - rewrite submit_claim_eq, Hc'. rewrite bool_decide_eq_true_2; [done|].
    rewrite Hid. cbn. apply elem_of_dom. by eexists.
Qed.

Lemma submit_claim_once_witness :
  submit_claim 0%nat 9 (run scenario initial_world)
    = (Return false, run scenario initial_world).
Proof.
  apply (submit_claim_once 0%nat 2 9 (drop 3 scenario) world_C1_constructed
           (run (take 3 scenario) initial_world)).
  - by exists (take 2 scenario).
  - vm_compute. reflexivity.
Defined.
